(** * Segment collection for app routes

    A shallow embedding of
    [packages/next/src/build/app-segments/collect-app-segments.ts]:
    the attacher [attach], the page-route walker [collectAppPageSegments],
    the handler-route builder [collectAppRouteSegments] and the dispatcher
    [collectSegments].

    JavaScript strings are sequences of code units; they are modelled by
    [string], every [ascii] standing for one code unit below 256.  Objects
    are finite maps from property names to values.  A function that mutates
    its [segment] argument and may throw is a state transformer on the
    segment that returns a completion. *)

From Stdlib Require Import Floats Ascii String.
From stdpp Require Import gmap strings list fin_maps.

Set Default Proof Using "Type".
#[local] Set Warnings "-register-all".

(** ** JavaScript values *)

(** A function value is only ever stored and compared, never called here. *)
Definition fn_ref := nat.

Inductive value : Type :=
| VUndefined
| VNull
| VBoolean (b : bool)
| VNumber (n : float)
| VString (s : string)
| VFunction (f : fn_ref)
| VObject (props : gmap string value).

(** [typeof v] *)
Definition typeof (v : value) : string :=
  match v with
  | VUndefined => "undefined"
  | VNull => "object"
  | VBoolean _ => "boolean"
  | VNumber _ => "number"
  | VString _ => "string"
  | VFunction _ => "function"
  | VObject _ => "object"
  end.

(** [ToBoolean(v)], the test behind [&&], [!] and [while]. *)
Definition truthy (v : value) : bool :=
  match v with
  | VUndefined | VNull => false
  | VBoolean b => b
  | VNumber n => negb (PrimFloat.eqb n 0%float || PrimFloat.is_nan n)
  | VString s => negb (String.eqb s "")
  | VFunction _ | VObject _ => true
  end.

(** [v === null] *)
Definition is_null (v : value) : bool :=
  match v with VNull => true | _ => false end.

(** [key in v], for an object [v] (own properties only). *)
Definition has_property (key : string) (v : value) : bool :=
  match v with
  | VObject props => bool_decide (is_Some (props !! key))
  | _ => false
  end.

(** [v.key] for a non-nullish [v]; a missing property reads as [undefined]. *)
Definition get_property (key : string) (v : value) : value :=
  match v with
  | VObject props => default VUndefined (props !! key)
  | _ => VUndefined
  end.

(** [v === str] for a string literal [str]. *)
Definition strict_equals_string (v : value) (str : string) : bool :=
  match v with
  | VString s => String.eqb s str
  | _ => false
  end.

(** [Object.keys(o)]; only the number of keys is observed. *)
Definition Object_keys (o : gmap string value) : list string :=
  (map_to_list o).*1.

(** ** Strings *)

Definition line_feed : ascii := "010"%char.
Definition carriage_return : ascii := "013"%char.
Definition double_quote : ascii := "034"%char.

(** [`${v}`] for an optional string: [undefined] prints as its name. *)
Definition template_string (v : option string) : string :=
  match v with
  | Some s => s
  | None => "undefined"
  end.

(** [parts.join(sep)] *)
Fixpoint join (sep : string) (parts : list string) : string :=
  match parts with
  | [] => ""
  | [p] => p
  | p :: rest => p +:+ sep +:+ join sep rest
  end.

(** [s.split(sep)] for a one-character separator.  The result always has
    at least one element: a string without the separator splits into
    itself, and the empty string into one empty string. *)
Fixpoint split (sep : ascii) (s : string) : list string :=
  match s with
  | EmptyString => [""]
  | String c rest =>
      if Ascii.eqb c sep then "" :: split sep rest
      else match split sep rest with
           | [] => [String c ""]
           | part :: parts => String c part :: parts
           end
  end.

(** [l.slice(1)] *)
Definition slice1 {A} (l : list A) : list A := drop 1 l.

(** ** Regular expressions

    The fragment of the pattern language the source uses, with matching by
    derivatives.  A pattern written between [^] and [$] (no flags) is
    tested against the whole input. *)

Inductive RegExp : Type :=
| Void                       (* the empty class: matches nothing *)
| Empty                      (* the empty pattern *)
| Char (c : ascii)           (* a pattern character or identity escape *)
| Dot                        (* [.]: any code unit but a line terminator *)
| Seq (r1 r2 : RegExp)
| Disj (r1 r2 : RegExp)
| Star (r : RegExp).

(** Line terminators among the code units below 256: LF and CR. *)
Definition is_line_terminator (c : ascii) : bool :=
  Ascii.eqb c line_feed || Ascii.eqb c carriage_return.

Fixpoint nullable (r : RegExp) : bool :=
  match r with
  | Void | Char _ | Dot => false
  | Empty | Star _ => true
  | Seq r1 r2 => nullable r1 && nullable r2
  | Disj r1 r2 => nullable r1 || nullable r2
  end.

Fixpoint deriv (a : ascii) (r : RegExp) : RegExp :=
  match r with
  | Void | Empty => Void
  | Char c => if Ascii.eqb a c then Empty else Void
  | Dot => if is_line_terminator a then Void else Empty
  | Seq r1 r2 =>
      if nullable r1 then Disj (Seq (deriv a r1) r2) (deriv a r2)
      else Seq (deriv a r1) r2
  | Disj r1 r2 => Disj (deriv a r1) (deriv a r2)
  | Star r1 => Seq (deriv a r1) (Star r1)
  end.

(** [/^r$/.test(s)] *)
Fixpoint test_anchored (r : RegExp) (s : string) : bool :=
  match s with
  | EmptyString => nullable r
  | String a rest => test_anchored (deriv a r) rest
  end.

(** The pattern [\[.*\]] of [/^\[.*\]$/]. *)
Definition bracketed : RegExp :=
  Seq (Char "[") (Seq (Star Dot) (Char "]")).

(** What it is for a string to match a pattern. *)
Inductive Matches : RegExp → string → Prop :=
| MEmpty : Matches Empty ""
| MChar c : Matches (Char c) (String c "")
| MDot c : is_line_terminator c = false → Matches Dot (String c "")
| MSeq r1 r2 s1 s2 :
    Matches r1 s1 → Matches r2 s2 → Matches (Seq r1 r2) (s1 +:+ s2)
| MDisjL r1 r2 s : Matches r1 s → Matches (Disj r1 r2) s
| MDisjR r1 r2 s : Matches r2 s → Matches (Disj r1 r2) s
| MStarNil r : Matches (Star r) ""
| MStarApp r s1 s2 :
    Matches r s1 → Matches (Star r) s2 → Matches (Star r) (s1 +:+ s2).

(** ** Data model *)

(** [AppSegmentConfig]: the object the schema validation returns. *)
Abbreviation AppSegmentConfig := (gmap string value) (only parsing).

(** [AppSegment] *)
Record AppSegment : Type := mkAppSegment {
  name : string;
  param : option string;
  filePath : option string;
  config : option AppSegmentConfig;
  isDynamicSegment : bool;
  generateStaticParams : option fn_ref;
}.

(** [LoaderTree]: the tuple [[segment, parallelRoutes, modules]].  The
    third component maps a component kind to a loaded module and its file;
    only [getLayoutOrPageModule] reads it. *)
Inductive LoaderTree : Type :=
| LoaderTreeNode (segment : string)
                 (parallelRoutes : gmap string LoaderTree)
                 (modules : gmap string (value * string)).

Definition segment_of (t : LoaderTree) : string :=
  match t with LoaderTreeNode segment _ _ => segment end.

Definition parallelRoutes_of (t : LoaderTree) : gmap string LoaderTree :=
  match t with LoaderTreeNode _ parallelRoutes _ => parallelRoutes end.

Definition modules_of (t : LoaderTree) : gmap string (value * string) :=
  match t with LoaderTreeNode _ _ modules => modules end.

(** The number of nodes of a tree, all parallel routes included. *)
Fixpoint tree_size (t : LoaderTree) : nat :=
  match t with
  | LoaderTreeNode _ parallelRoutes _ =>
      S (map_fold (λ _ child acc, tree_size child + acc) 0 parallelRoutes)
  end.

(** What [getSegmentParam] returns when it recognises the name. *)
Module SegmentParam.
Record t : Type := mk { param : string; type : string }.
End SegmentParam.

(** What [getLayoutOrPageModule] resolves to: [{ mod, filePath }]. *)
Module ResolvedModule.
Record t : Type := mk { module : value; filePath : option string }.
End ResolvedModule.

(** One entry of [normalizeZodErrors(error)]; only [message] is read. *)
Module NormalizedZodError.
Record t : Type := mk { message : string }.
End NormalizedZodError.

(** The result of [safeParse]: [{ success: true, data }] or
    [{ success: false, error }]. *)
Inductive SafeParseReturn (E : Type) : Type :=
| ParseSuccess (data : AppSegmentConfig)
| ParseFailure (error : E).
Arguments ParseSuccess {E} data.
Arguments ParseFailure {E} error.

(** [AppRouteRouteModule]: [definition.pathname], [definition.filename]
    and the [userland] exports. *)
Module AppRouteRouteModule.
Record definition_t : Type := mkDefinition { pathname : string; filename : string }.
Record t : Type := mk { definition : definition_t; userland : value }.
End AppRouteRouteModule.

(** [AppPageRouteModule]: [userland.loaderTree]. *)
Module AppPageRouteModule.
Record userland_t : Type := mkUserland { loaderTree : LoaderTree }.
Record t : Type := mk { userland : userland_t }.
End AppPageRouteModule.

(** The route modules [collectSegments] can be handed, by kind. *)
Inductive RouteModule : Type :=
| AppRouteKind (m : AppRouteRouteModule.t)
| AppPageKind (m : AppPageRouteModule.t)
| OtherKind.

(** ** Imported functions

    The functions this file imports from other modules.  Their code is not
    part of this development; everything below is stated for arbitrary
    implementations of them. *)
Class Collaborators : Type := {
  (** the error type of the schema library *)
  ZodError : Type;
  (** [AppSegmentConfigSchema.safeParse] *)
  AppSegmentConfigSchema_safeParse : value → SafeParseReturn ZodError;
  normalizeZodErrors : ZodError → list NormalizedZodError.t;
  isClientReference : value → bool;
  getSegmentParam : string → option SegmentParam.t;
  getLayoutOrPageModule : LoaderTree → ResolvedModule.t;
}.

(** ** Completions and the segment-mutating computations *)

Inductive exn : Type :=
| Error (message : string)
| InvariantError (message : string)
| TypeError (message : string).

Inductive completion (A : Type) : Type :=
| Normal (a : A)
| Throw (e : exn).
Arguments Normal {A} a.
Arguments Throw {A} e.

(** A computation over the segment passed by reference: it returns the
    segment as it leaves it, also when it throws. *)
Definition Attach (A : Type) : Type := AppSegment → AppSegment * completion A.

#[export] Instance Attach_ret : MRet Attach := λ A a segment, (segment, Normal a).

#[export] Instance Attach_bind : MBind Attach := λ A B k m segment,
  match m segment with
  | (segment', Normal a) => k a segment'
  | (segment', Throw e) => (segment', Throw e)
  end.

Definition throw {A} (e : exn) : Attach A := λ segment, (segment, Throw e).

(** reading the segment *)
Definition read : Attach AppSegment := λ segment, (segment, Normal segment).

(** [segment.filePath = v] *)
Definition set_filePath (v : option string) (segment : AppSegment) : AppSegment :=
  {| name := name segment; param := param segment; filePath := v;
     config := config segment; isDynamicSegment := isDynamicSegment segment;
     generateStaticParams := generateStaticParams segment |}.

(** [segment.config = v] *)
Definition set_config (v : option AppSegmentConfig) (segment : AppSegment) : AppSegment :=
  {| name := name segment; param := param segment; filePath := filePath segment;
     config := v; isDynamicSegment := isDynamicSegment segment;
     generateStaticParams := generateStaticParams segment |}.

(** [segment.generateStaticParams = v] *)
Definition set_generateStaticParams (v : option fn_ref) (segment : AppSegment) : AppSegment :=
  {| name := name segment; param := param segment; filePath := filePath segment;
     config := config segment; isDynamicSegment := isDynamicSegment segment;
     generateStaticParams := v |}.

Definition assign (f : AppSegment → AppSegment) : Attach unit :=
  λ segment, (f segment, Normal tt).

(** A function value seen as a [GenerateStaticParams]. *)
Definition as_function (v : value) : option fn_ref :=
  match v with VFunction f => Some f | _ => None end.

(** [segment.config?.runtime === 'edge'] *)
Definition runtime_is_edge (segment : AppSegment) : bool :=
  match config segment with
  | Some data => strict_equals_string (default VUndefined (data !! "runtime")) "edge"
  | None => false
  end.

(** The first line of the validation error. *)
Definition invalid_options_header (path : option string) : string :=
  "Invalid segment configuration options detected for "
    +:+ String double_quote (template_string path)
    +:+ String double_quote ": ".

(** One pushed line: four spaces, then the message. *)
Definition indented (message : string) : string := "    " +:+ message.

Definition edge_error_message : string :=
  "Edge runtime is not supported with `generateStaticParams`.".

Section Code.
Context `{Collaborators}.

(** [attach(segment, userland)] *)
Definition attach (userland : value) : Attach unit :=
  if negb (String.eqb (typeof userland) "object") || is_null userland then
    mret tt
  else
    match AppSegmentConfigSchema_safeParse userland with
    | ParseFailure error =>
        segment ← read;
        let messages :=
          invalid_options_header (filePath segment)
            :: map (λ e, indented (NormalizedZodError.message e))
                   (normalizeZodErrors error) in
        throw (Error (join (String line_feed "") messages))
    | ParseSuccess data =>
        (if bool_decide (0 < length (Object_keys data))
         then assign (set_config (Some data)) else mret tt) ;;
        if has_property "generateStaticParams" userland
           && String.eqb (typeof (get_property "generateStaticParams" userland)) "function"
        then
          assign (set_generateStaticParams
                    (as_function (get_property "generateStaticParams" userland))) ;;
          segment ← read;
          if runtime_is_edge segment then throw (Error edge_error_message)
          else mret tt
        else mret tt
    end.

(** The segment a name gives, before any file or configuration. *)
Definition isDynamicSegment_of (name : string) : bool :=
  test_anchored bracketed name.

Definition param_of (name : string) : option string :=
  if isDynamicSegment_of name
  then SegmentParam.param <$> getSegmentParam name
  else None.

(** The value of [userland && isClientReference(userland)]. *)
Definition isClientComponent_of (userland : value) : value :=
  if truthy userland then VBoolean (isClientReference userland) else userland.

(** One turn of the loop of [collectAppPageSegments], up to the push: the
    segment built for [current] and how the turn completes. *)
Definition visit (current : LoaderTree) : AppSegment * completion unit :=
  let name := segment_of current in
  let resolved := getLayoutOrPageModule current in
  let userland := ResolvedModule.module resolved in
  let isClientComponent := isClientComponent_of userland in
  let segment :=
    {| name := name; param := param_of name;
       filePath := ResolvedModule.filePath resolved; config := None;
       isDynamicSegment := isDynamicSegment_of name;
       generateStaticParams := None |} in
  if negb (truthy isClientComponent) then attach userland segment
  else (segment, Normal tt).

(** The loop of [collectAppPageSegments]; [None] when [fuel] turns were
    not enough. *)
Fixpoint walk (fuel : nat) (current : option LoaderTree) (segments : list AppSegment)
  : option (completion (list AppSegment)) :=
  match current with
  | None => Some (Normal segments)
  | Some node =>
      match fuel with
      | 0 => None
      | S fuel' =>
          match visit node with
          | (_, Throw e) => Some (Throw e)
          | (segment, Normal _) =>
              walk fuel' (parallelRoutes_of node !! "children") (segments ++ [segment])
          end
      end
  end.

(** [collectAppPageSegments(routeModule)], the value the promise settles
    to.  A tree has no more nodes on its chain than it has nodes. *)
Definition collectAppPageSegments (routeModule : AppPageRouteModule.t)
  : option (completion (list AppSegment)) :=
  let tree := AppPageRouteModule.loaderTree (AppPageRouteModule.userland routeModule) in
  walk (tree_size tree) (Some tree) [].

(** [collectAppRouteSegments(routeModule)] *)
Definition collectAppRouteSegments (routeModule : AppRouteRouteModule.t)
  : completion (list AppSegment) :=
  let definition := AppRouteRouteModule.definition routeModule in
  let parts := slice1 (split "/" (AppRouteRouteModule.pathname definition)) in
  if length parts =? 0 then Throw (InvariantError "Expected at least one segment")
  else
    let segments :=
      map (λ name,
             {| name := name; param := param_of name; filePath := None;
                isDynamicSegment := isDynamicSegment_of name; config := None;
                generateStaticParams := None |}) parts in
    match segments !! (length segments - 1) with
    | None => Throw (TypeError "Cannot set properties of undefined")
    | Some segment =>
        match attach (AppRouteRouteModule.userland routeModule)
                     (set_filePath (Some (AppRouteRouteModule.filename definition)) segment) with
        | (_, Throw e) => Throw e
        | (segment', Normal _) => Normal (<[length segments - 1 := segment']> segments)
        end
    end.

(** [collectSegments({ routeModule })] *)
Definition collectSegments (routeModule : RouteModule)
  : option (completion (list AppSegment)) :=
  match routeModule with
  | AppRouteKind m => Some (collectAppRouteSegments m)
  | AppPageKind m => collectAppPageSegments m
  | OtherKind =>
      Some (Throw (InvariantError "Expected a route module to be one of app route or page"))
  end.

End Code.

(** ** Stand-ins for the imported functions

    Concrete implementations of [Collaborators], used to run the code above
    on examples. *)
Module SpecModel.

(** Modelled from the spec: the options of the missing schema
    [AppSegmentConfigSchema], one per family the spec names, with the test
    each value has to pass. *)
Definition fields : list (string * (value → bool)) :=
  [ ("runtime", λ v : value, strict_equals_string v "edge" || strict_equals_string v "nodejs");
    ("revalidate", λ v : value, match v with VNumber _ | VBoolean false => true | _ => false end);
    ("maxDuration", λ v : value, match v with VNumber _ => true | _ => false end) ].

(** Modelled from the spec: the errors of the missing schema, one per
    recognised option whose value does not pass, in the order of the
    options. *)
Definition field_errors (props : gmap string value) : list string :=
  omap (λ field : string * (value → bool),
          match props !! field.1 with
          | Some v =>
              if field.2 v then None else Some ("Invalid value for " +:+ field.1)
          | None => None
          end) fields.

(** Modelled from the spec: the validated configuration of the missing
    schema, the recognised options the object sets. *)
Definition recognised (props : gmap string value) : gmap string value :=
  foldr (λ (field : string * (value → bool)) data,
           match props !! field.1 with
           | Some v => <[field.1 := v]> data
           | None => data
           end) ∅ fields.

(** Modelled from the spec: the option schema [AppSegmentConfigSchema]
    ([./app-segment-config]) is missing.  The spec names the families of
    recognised options (runtime selection, revalidation, execution limits)
    and says that validation gives either the validated configuration or
    one error per offending field; a key that is not recognised is not part
    of the validated configuration. *)
Definition safeParse (v : value) : SafeParseReturn (list string) :=
  match v with
  | VObject props =>
      match field_errors props with
      | [] => ParseSuccess (recognised props)
      | errors => ParseFailure errors
      end
  | _ => ParseFailure ["Expected object"]
  end.

(** Modelled from the spec: [normalizeZodErrors] ([shared/lib/zod]) is
    missing; it turns the validation error into the ordered sequence of
    field errors, each with a readable message. *)
Definition normalize (error : list string) : list NormalizedZodError.t :=
  NormalizedZodError.mk <$> error.

(** Modelled from the spec: [isClientReference] ([lib/client-reference])
    is missing; it is a capability check on the module value, here a tag
    carried by the module or by its default export. *)
Definition clientReference (userland : value) : bool :=
  let default_export := get_property "default" userland in
  let target := if truthy default_export then default_export else userland in
  strict_equals_string (get_property "$$typeof" target) "react.client.reference".

(** [s.slice(from, -back)], for [from + back] within the length. *)
Definition slice (from back : nat) (s : string) : string :=
  String.substring from (String.length s - back - from) s.

Definition endsWith (suffix s : string) : bool :=
  String.eqb suffix
    (String.substring (String.length s - String.length suffix) (String.length suffix) s).

(** Modelled from the spec: [getSegmentParam]
    ([server/app-render/get-segment-param]) is missing; it extracts the
    declared parameter name of a dynamic segment in one of the recognised
    forms (single, catch-all, optional catch-all) and yields none for any
    other name. *)
Definition segmentParam (segment : string) : option SegmentParam.t :=
  if String.prefix "[[..." segment && endsWith "]]" segment then
    Some (SegmentParam.mk (slice 5 2 segment) "optional-catchall")
  else if String.prefix "[..." segment && endsWith "]" segment then
    Some (SegmentParam.mk (slice 4 1 segment) "catchall")
  else if String.prefix "[" segment && endsWith "]" segment then
    Some (SegmentParam.mk (slice 1 1 segment) "dynamic")
  else None.

(** Modelled from the spec: [getLayoutOrPageModule]
    ([server/lib/app-dir-module]) is missing; it returns the module and
    file of the layout or page applicable at the node, or an absent module
    when the node has neither. *)
Definition layoutOrPageModule (tree : LoaderTree) : ResolvedModule.t :=
  match modules_of tree !! "layout", modules_of tree !! "page" with
  | Some (module, file), _ => ResolvedModule.mk module (Some file)
  | None, Some (module, file) => ResolvedModule.mk module (Some file)
  | None, None => ResolvedModule.mk VUndefined None
  end.

Definition collaborators : Collaborators :=
  {| ZodError := list string;
     AppSegmentConfigSchema_safeParse := safeParse;
     normalizeZodErrors := normalize;
     isClientReference := clientReference;
     getSegmentParam := segmentParam;
     getLayoutOrPageModule := layoutOrPageModule |}.

(** Example inputs. *)

(** [{ runtime: 'edge', generateStaticParams: fn }] *)
Definition edge_with_params : value :=
  VObject {[ "runtime" := VString "edge"; "generateStaticParams" := VFunction 0 ]}.

(** [{ runtime: 'browser', maxDuration: 'long' }]: two invalid options. *)
Definition two_invalid : value :=
  VObject {[ "runtime" := VString "browser"; "maxDuration" := VString "long" ]}.

(** [{ revalidate: 60 }] *)
Definition revalidate_only : value :=
  VObject {[ "revalidate" := VNumber 60%float ]}.

(** A client module that also exports options. *)
Definition client_module : value :=
  VObject {[ "$$typeof" := VString "react.client.reference";
             "runtime" := VString "edge"; "generateStaticParams" := VFunction 0 ]}.

Definition blank_segment (name : string) (file : option string) : AppSegment :=
  {| name := name; param := None; filePath := file; config := None;
     isDynamicSegment := false; generateStaticParams := None |}.

Definition shop : AppSegment := blank_segment "shop" (Some "app/shop/page.tsx").

Definition route (pathname : string) (userland : value) : AppRouteRouteModule.t :=
  AppRouteRouteModule.mk (AppRouteRouteModule.mkDefinition pathname "app/route.ts") userland.

Definition leaf (segment : string) (module : value) : LoaderTree :=
  LoaderTreeNode segment ∅ {[ "page" := (module, "app/page.tsx") ]}.

Definition layout (segment : string) (module : value) (child : LoaderTree) : LoaderTree :=
  LoaderTreeNode segment {[ "children" := child ]} {[ "layout" := (module, "app/layout.tsx") ]}.

Definition page (tree : LoaderTree) : AppPageRouteModule.t :=
  AppPageRouteModule.mk (AppPageRouteModule.mkUserland tree).

End SpecModel.

(** ** Notions used to state the properties *)

(** No code unit of the string is a line terminator. *)
Fixpoint no_line_terminator (s : string) : bool :=
  match s with
  | EmptyString => true
  | String c rest => negb (is_line_terminator c) && no_line_terminator rest
  end.

(** [Chain tree nodes]: [nodes] are the nodes met from [tree] by following
    the [children] entry of the parallel routes, down to the first node
    that has none. *)
Inductive Chain : LoaderTree → list LoaderTree → Prop :=
| Chain_last node :
    parallelRoutes_of node !! "children" = None → Chain node [node]
| Chain_step node child rest :
    parallelRoutes_of node !! "children" = Some child →
    Chain child rest → Chain node (node :: rest).

(** [c] is one of the code units of [s]. *)
Fixpoint occurs (c : ascii) (s : string) : bool :=
  match s with
  | EmptyString => false
  | String c' rest => Ascii.eqb c' c || occurs c rest
  end.

(** [hay] has [needle] as a substring. *)
Definition mentions (hay needle : string) : Prop :=
  ∃ before after, hay = before +:+ needle +:+ after.

(** [userland] is an object in the sense of the first test of [attach]. *)
Definition is_object (userland : value) : Prop :=
  typeof userland = "object" ∧ userland ≠ VNull.

(** The number of code units of [s] equal to [c]. *)
Fixpoint occurrences (c : ascii) (s : string) : nat :=
  match s with
  | EmptyString => 0
  | String c' rest =>
      if Ascii.eqb c' c then S (occurrences c rest) else occurrences c rest
  end.

(** [userland] has a callable [generateStaticParams], the function [f]. *)
Definition exports_generateStaticParams (userland : value) (f : fn_ref) : Prop :=
  get_property "generateStaticParams" userland = VFunction f.

Section Turns.
Context `{Collaborators}.

(** The turns of the loop of [collectAppPageSegments] over [nodes], one
    after the other: the segments pushed, or the first error thrown. *)
Fixpoint visit_chain (nodes : list LoaderTree) : completion (list AppSegment) :=
  match nodes with
  | [] => Normal []
  | node :: rest =>
      match visit node with
      | (_, Throw e) => Throw e
      | (segment, Normal _) =>
          match visit_chain rest with
          | Normal segments => Normal (segment :: segments)
          | Throw e => Throw e
          end
      end
  end.

(** The segment [collectAppRouteSegments] first builds for a path
    component. *)
Definition path_segment (name : string) : AppSegment :=
  {| name := name; param := param_of name; filePath := None;
     isDynamicSegment := isDynamicSegment_of name; config := None;
     generateStaticParams := None |}.

(** The segment a turn of the walker builds for a node, before [attach]. *)
Definition node_segment (node : LoaderTree) : AppSegment :=
  {| name := segment_of node; param := param_of (segment_of node);
     filePath := ResolvedModule.filePath (getLayoutOrPageModule node);
     config := None; isDynamicSegment := isDynamicSegment_of (segment_of node);
     generateStaticParams := None |}.

(** A segment that some call of [collectSegments] returned. *)
Definition Produced (segment : AppSegment) : Prop :=
  ∃ routeModule segments,
    collectSegments routeModule = Some (Normal segments) ∧ segment ∈ segments.

End Turns.

(** ** Strings and patterns *)

Lemma append_cons (c : ascii) (s1 s2 : string) :
  String c s1 +:+ s2 = String c (s1 +:+ s2).
Proof. reflexivity. Qed.

Lemma append_empty_l (s : string) : "" +:+ s = s.
Proof. reflexivity. Qed.

Lemma append_assoc (s1 s2 s3 : string) : (s1 +:+ s2) +:+ s3 = s1 +:+ s2 +:+ s3.
Proof.
  induction s1 as [|c s1 IH]; [done|]. by rewrite !append_cons, IH.
Qed.

Lemma append_empty_r (s : string) : s +:+ "" = s.
Proof. induction s as [|c s IH]; [done|]. by rewrite append_cons, IH. Qed.

Lemma append_eq_empty (s1 s2 : string) : s1 +:+ s2 = "" → s1 = "" ∧ s2 = "".
Proof. destruct s1; [done|]. rewrite append_cons. discriminate. Qed.

Lemma nullable_Matches (r : RegExp) : nullable r = true ↔ Matches r "".
Proof.
  split.
  - induction r as [| | | |r1 IH1 r2 IH2|r1 IH1 r2 IH2|r IH]; simpl; intros Hn;
      try discriminate.
    + constructor.
    + apply andb_true_iff in Hn as [H1 H2].
      change EmptyString with ("" +:+ "")%string. constructor; auto.
    + apply orb_true_iff in Hn as [H1|H2];
        [apply MDisjL | apply MDisjR]; auto.
    + constructor.
  - intros Hm. remember EmptyString as s eqn:Hs.
    induction Hm as [| | |r1 r2 s1 s2 _ IH1 _ IH2| | | |]; simpl; try done.
    + apply append_eq_empty in Hs as [-> ->]. by rewrite IH1, IH2.
    + by rewrite IHHm.
    + rewrite IHHm by done. apply orb_true_r.
Qed.

Lemma deriv_sound (a : ascii) (r : RegExp) (s : string) :
  Matches (deriv a r) s → Matches r (String a s).
Proof.
  revert s.
  induction r as [| | c | |r1 IH1 r2 IH2|r1 IH1 r2 IH2|r IH]; simpl; intros s Hm.
  - inversion Hm.
  - inversion Hm.
  - destruct (Ascii.eqb a c) eqn:Hac; [|inversion Hm].
    apply Ascii.eqb_eq in Hac as ->. inversion Hm; subst. constructor.
  - destruct (is_line_terminator a) eqn:Ha; [inversion Hm|].
    inversion Hm; subst. by constructor.
  - destruct (nullable r1) eqn:Hn.
    + inversion Hm as [| | | |? ? ? H1|? ? ? H2| |]; subst.
      * inversion H1; subst.
        change (Matches (Seq r1 r2) (String a s1 +:+ s2)). constructor; auto.
      * change (Matches (Seq r1 r2) ("" +:+ String a s)). constructor; auto.
        by apply nullable_Matches.
    + inversion Hm; subst.
      change (Matches (Seq r1 r2) (String a s1 +:+ s2)). constructor; auto.
  - inversion Hm; subst; [apply MDisjL | apply MDisjR]; auto.
  - inversion Hm; subst.
    change (Matches (Star r) (String a s1 +:+ s2)). constructor; auto.
Qed.

Lemma deriv_complete (a : ascii) (r : RegExp) (s : string) :
  Matches r (String a s) → Matches (deriv a r) s.
Proof.
  intros Hm. remember (String a s) as w eqn:Hw. revert a s Hw.
  induction Hm as [|c|c Hc|r1 r2 s1 s2 H1 IH1 H2 IH2|r1 r2 w H IH|r1 r2 w H IH
                  |r|r s1 s2 H1 IH1 H2 IH2]; intros a s Hw; simpl.
  - discriminate.
  - injection Hw as -> <-. rewrite Ascii.eqb_refl. constructor.
  - injection Hw as -> <-. rewrite Hc. constructor.
  - destruct s1 as [|b s1]; [rewrite append_empty_l in Hw|rewrite append_cons in Hw].
    + apply nullable_Matches in H1. rewrite H1. apply MDisjR. auto.
    + injection Hw as -> <-.
      destruct (nullable r1); [apply MDisjL|]; constructor; auto.
  - apply MDisjL. auto.
  - apply MDisjR. auto.
  - discriminate.
  - destruct s1 as [|b s1]; [rewrite append_empty_l in Hw|rewrite append_cons in Hw].
    + by apply IH2.
    + injection Hw as -> <-. constructor; auto.
Qed.

Lemma test_anchored_Matches (r : RegExp) (s : string) :
  test_anchored r s = true ↔ Matches r s.
Proof.
  revert r. induction s as [|a s IH]; intros r; simpl.
  - apply nullable_Matches.
  - rewrite IH. split; [apply deriv_sound | apply deriv_complete].
Qed.

Lemma Matches_star_dot (s : string) :
  Matches (Star Dot) s ↔ no_line_terminator s = true.
Proof.
  split.
  - intros Hm. remember (Star Dot) as r eqn:Hr.
    induction Hm as [| | | | | | |r s1 s2 H1 _ H2 IH2]; try discriminate.
    + done.
    + injection Hr as ->. inversion H1 as [| |c Hc| | | | |]; subst. simpl.
      rewrite Hc. simpl. auto.
  - induction s as [|c s IH]; simpl; intros Hs.
    + constructor.
    + apply andb_true_iff in Hs as [Hc Hs]. apply negb_true_iff in Hc.
      change (Matches (Star Dot) (String c "" +:+ s)).
      constructor; [by constructor | auto].
Qed.

(** A name matches [\[.*\]] exactly when it is an opening bracket, then
    code units none of which is a line terminator, then a closing bracket. *)
Lemma Matches_bracketed (s : string) :
  Matches bracketed s ↔
  ∃ inner, s = String "[" (inner +:+ "]") ∧ no_line_terminator inner = true.
Proof.
  unfold bracketed. split.
  - intros Hm. inversion Hm as [| | |? ? s1 s2 H1 H2| | | |]; subst.
    inversion H1; subst. inversion H2 as [| | |? ? s3 s4 H3 H4| | | |]; subst.
    inversion H4; subst. exists s3. split; [done|]. by apply Matches_star_dot.
  - intros (inner & -> & Hinner).
    change (Matches (Seq (Char "[") (Seq (Star Dot) (Char "]")))
              (String "[" "" +:+ inner +:+ String "]" "")).
    repeat constructor. by apply Matches_star_dot.
Qed.

Lemma join_cons (sep part : string) (parts : list string) :
  parts ≠ [] → join sep (part :: parts) = part +:+ sep +:+ join sep parts.
Proof. by destruct parts. Qed.

(** Every part after the first stands in the joined string right after a
    separator, and is followed by the end or by a separator. *)
Lemma join_mentions (sep head part : string) (parts : list string) :
  part ∈ parts →
  ∃ before after,
    join sep (head :: parts) = before +:+ sep +:+ part +:+ after
    ∧ (after = "" ∨ ∃ rest, after = sep +:+ rest).
Proof.
  revert head. induction parts as [|p parts IH]; intros head Hin.
  - by apply elem_of_nil in Hin.
  - apply elem_of_cons in Hin as [->|Hin].
    + rewrite join_cons by done. exists head. destruct parts as [|q parts].
      * exists "". simpl. rewrite append_empty_r. auto.
      * exists (sep +:+ join sep (q :: parts)). rewrite join_cons by done.
        split; [done|]. right. eauto.
    + destruct (IH p Hin) as (before & after & Heq & Hafter).
      exists (head +:+ sep +:+ before), after.
      rewrite join_cons by done. rewrite Heq.
      by rewrite !append_assoc.
Qed.

Lemma split_nonempty (sep : ascii) (s : string) : split sep s ≠ [].
Proof.
  induction s as [|c s IH]; simpl; [done|].
  destruct (Ascii.eqb c sep); [done|]. by destruct (split sep s).
Qed.

Lemma split_length_1 (sep : ascii) (s : string) :
  length (split sep s) = 1 ↔ occurs sep s = false.
Proof.
  induction s as [|c s IH]; simpl; [done|].
  pose proof (split_nonempty sep s) as Hne.
  destruct (Ascii.eqb c sep); simpl.
  - destruct (split sep s); [done|]. simpl. split; [lia | done].
  - destruct (split sep s); [done|]. exact IH.
Qed.

(** After [slice(1)] nothing is left exactly when the string has no
    separator at all. *)
Lemma slice1_split_empty (sep : ascii) (s : string) :
  length (slice1 (split sep s)) = 0 ↔ occurs sep s = false.
Proof.
  rewrite <- split_length_1. unfold slice1. rewrite length_drop.
  pose proof (split_nonempty sep s). destruct (split sep s); [done|].
  simpl. lia.
Qed.

Lemma Object_keys_empty (data : gmap string value) :
  bool_decide (0 < length (Object_keys data)) = false ↔ data = ∅.
Proof.
  unfold Object_keys. rewrite length_fmap, bool_decide_eq_false.
  split.
  - intros Hlen. apply map_to_list_empty_iff.
    destruct (map_to_list data); [done|]. simpl in Hlen. lia.
  - intros ->. rewrite map_to_list_empty. simpl. lia.
Qed.

Lemma is_object_test (userland : value) :
  negb (String.eqb (typeof userland) "object") || is_null userland = false
  ↔ is_object userland.
Proof.
  unfold is_object. destruct userland; simpl; split; intros; try done;
    try (by destruct_and!).
Qed.

Lemma is_object_cases (userland : value) :
  is_object userland ∨ ¬ is_object userland.
Proof.
  destruct (negb (String.eqb (typeof userland) "object") || is_null userland) eqn:Htest.
  - right. intros Hobj. apply is_object_test in Hobj. congruence.
  - left. by apply is_object_test.
Qed.

(** ** The attacher *)

Section Attacher.
Context `{Collaborators}.

Ltac run :=
  unfold mbind, Attach_bind, mret, Attach_ret, assign, read, throw; simpl.

(** [attach] on an object whose validation fails. *)
Lemma attach_parse_failure (userland : value) (error : ZodError) (segment : AppSegment) :
  is_object userland →
  AppSegmentConfigSchema_safeParse userland = ParseFailure error →
  attach userland segment =
    (segment,
     Throw (Error (join (String line_feed "")
                     (invalid_options_header (filePath segment)
                        :: map (λ e, indented (NormalizedZodError.message e))
                               (normalizeZodErrors error))))).
Proof.
  intros Hobj Hparse. unfold attach.
  apply is_object_test in Hobj. rewrite Hobj, Hparse. by run.
Qed.

(** [attach] on an object whose validation succeeds: the two assignments,
    then the edge check. *)
Lemma attach_parse_success (userland : value) (data : gmap string value)
    (segment : AppSegment) :
  is_object userland →
  AppSegmentConfigSchema_safeParse userland = ParseSuccess data →
  attach userland segment =
    let configured :=
      if bool_decide (0 < length (Object_keys data))
      then set_config (Some data) segment else segment in
    if has_property "generateStaticParams" userland
       && String.eqb (typeof (get_property "generateStaticParams" userland)) "function"
    then
      let assigned :=
        set_generateStaticParams
          (as_function (get_property "generateStaticParams" userland)) configured in
      (assigned,
       if runtime_is_edge assigned then Throw (Error edge_error_message)
       else Normal tt)
    else (configured, Normal tt).
Proof.
  intros Hobj Hparse. unfold attach.
  apply is_object_test in Hobj. rewrite Hobj, Hparse. run.
  destruct (bool_decide _); run;
    destruct (has_property _ _ && _); run; try done;
    by destruct (runtime_is_edge _).
Qed.

Lemma attach_not_object (userland : value) (segment : AppSegment) :
  ¬ is_object userland → attach userland segment = (segment, Normal tt).
Proof.
  intros Hobj. unfold attach.
  destruct (negb _ || _) eqn:Htest; [done|].
  by apply is_object_test in Htest.
Qed.

(** [attach] never touches the name, the parameter, the file or the
    dynamic flag. *)
Lemma attach_frame (userland : value) (segment : AppSegment) :
  let segment' := (attach userland segment).1 in
  name segment' = name segment ∧ param segment' = param segment
  ∧ filePath segment' = filePath segment
  ∧ isDynamicSegment segment' = isDynamicSegment segment.
Proof.
  destruct (is_object_cases userland) as [Hobj|Hobj].
  - destruct (AppSegmentConfigSchema_safeParse userland) as [data|error] eqn:Hparse.
    + rewrite (attach_parse_success _ _ _ Hobj Hparse). simpl.
      destruct (bool_decide _); destruct (_ && _); simpl; done.
    + by rewrite (attach_parse_failure _ _ _ Hobj Hparse).
  - by rewrite (attach_not_object _ _ Hobj).
Qed.

(** The only errors [attach] throws are plain [Error]s. *)
Lemma attach_throws_Error (userland : value) (segment : AppSegment) (e : exn) :
  (attach userland segment).2 = Throw e → ∃ message, e = Error message.
Proof.
  destruct (is_object_cases userland) as [Hobj|Hobj].
  - destruct (AppSegmentConfigSchema_safeParse userland) as [data|error] eqn:Hparse.
    + rewrite (attach_parse_success _ _ _ Hobj Hparse). simpl.
      destruct (_ && _); simpl; [|done].
      destruct (runtime_is_edge _); [|done]. intros [= <-]. eauto.
    + rewrite (attach_parse_failure _ _ _ Hobj Hparse). simpl.
      intros [= <-]. eauto.
  - by rewrite (attach_not_object _ _ Hobj).
Qed.

(** A segment handed to [attach] without [generateStaticParams] never
    comes back, on a normal return, with both that function and a
    configuration selecting the edge runtime. *)
Lemma attach_returns_edge_exclusive (userland : value) (segment segment' : AppSegment) :
  generateStaticParams segment = None →
  attach userland segment = (segment', Normal tt) →
  ¬ (runtime_is_edge segment' = true ∧ is_Some (generateStaticParams segment')).
Proof.
  intros Hnone.
  destruct (is_object_cases userland) as [Hobj|Hobj].
  - destruct (AppSegmentConfigSchema_safeParse userland) as [data|error] eqn:Hparse.
    + rewrite (attach_parse_success _ _ _ Hobj Hparse). simpl.
      destruct (_ && _).
      * destruct (runtime_is_edge _) eqn:Hedge; [done|].
        intros [= <-] [Hedge' _]. congruence.
      * intros [= <-] [_ [f Hf]].
        destruct (bool_decide _); simpl in Hf; congruence.
    + by rewrite (attach_parse_failure _ _ _ Hobj Hparse).
  - rewrite (attach_not_object _ _ Hobj). intros [= <-] [_ [f Hf]]. congruence.
Qed.

End Attacher.

Section AttacherProperties.
Context `{Collaborators}.

(** C1 (amended).  When the validated configuration of an object export
    selects the edge runtime and the export has a callable
    [generateStaticParams], [attach] throws the incompatibility error, and
    the segment it leaves behind has both fields assigned: the validated
    configuration and the function, both stored before the check. *)
Theorem attach_edge_with_generateStaticParams
    (userland : value) (data : gmap string value) (f : fn_ref) (segment : AppSegment) :
  is_object userland →
  AppSegmentConfigSchema_safeParse userland = ParseSuccess data →
  data !! "runtime" = Some (VString "edge") →
  get_property "generateStaticParams" userland = VFunction f →
  attach userland segment =
    (set_generateStaticParams (Some f) (set_config (Some data) segment),
     Throw (Error edge_error_message)).
Proof.
  intros Hobj Hparse Hruntime Hfn.
  rewrite (attach_parse_success _ _ _ Hobj Hparse). simpl.
  assert (bool_decide (0 < length (Object_keys data)) = true) as ->.
  { destruct (bool_decide _) eqn:Hkeys; [done|].
    apply Object_keys_empty in Hkeys. subst data. by rewrite lookup_empty in Hruntime. }
  assert (has_property "generateStaticParams" userland = true) as ->.
  { destruct userland as [| | | | | |props]; simpl in Hfn |- *; try done.
    apply bool_decide_eq_true. destruct (props !! "generateStaticParams"); [eauto|done]. }
  rewrite Hfn. simpl. unfold runtime_is_edge. simpl. by rewrite Hruntime.
Qed.

(** C5.  When the validation of an object export fails, [attach] throws one
    error.  Its message is the header naming the file of the segment, then,
    after a line break each, every reported field error behind four
    spaces, in the order reported; so each reported error is mentioned on a
    line of its own. *)
Theorem attach_reports_every_field_error
    (userland : value) (error : ZodError) (segment : AppSegment) :
  is_object userland →
  AppSegmentConfigSchema_safeParse userland = ParseFailure error →
  ∃ text,
    (attach userland segment).2 = Throw (Error text)
    ∧ text =
        join (String line_feed "")
          (("Invalid segment configuration options detected for "
              +:+ String double_quote (template_string (filePath segment))
              +:+ String double_quote ": ")
             :: map (λ e, "    " +:+ NormalizedZodError.message e)
                    (normalizeZodErrors error))
    ∧ ∀ e, e ∈ normalizeZodErrors error →
        ∃ before after,
          text = before +:+ String line_feed ""
                   +:+ ("    " +:+ NormalizedZodError.message e) +:+ after
          ∧ (after = "" ∨ ∃ rest, after = String line_feed "" +:+ rest).
Proof.
  intros Hobj Hparse.
  rewrite (attach_parse_failure _ _ _ Hobj Hparse). simpl.
  eexists. split; [done|]. split; [done|].
  intros e He. apply join_mentions.
  apply (list_elem_of_fmap_2 (λ e, indented (NormalizedZodError.message e))) in He.
  exact He.
Qed.

(** C6.  When the validation of an object export succeeds, [attach] assigns
    [config] exactly when the validated result has a key: with no key the
    field is left as it was (unset, for a segment that had none), with at
    least one key it holds the validated result. *)
Theorem attach_config_iff_keys
    (userland : value) (data : gmap string value) (segment : AppSegment) :
  is_object userland →
  AppSegmentConfigSchema_safeParse userland = ParseSuccess data →
  (Object_keys data = [] → config (attach userland segment).1 = config segment)
  ∧ (Object_keys data ≠ [] → config (attach userland segment).1 = Some data).
Proof.
  intros Hobj Hparse.
  rewrite (attach_parse_success _ _ _ Hobj Hparse). simpl.
  split; intros Hkeys.
  - rewrite Hkeys. simpl. by destruct (_ && _).
  - assert (bool_decide (0 < length (Object_keys data)) = true) as ->.
    { apply bool_decide_eq_true. destruct (Object_keys data); [done|simpl; lia]. }
    by destruct (_ && _).
Qed.

(** C9.  For a value that is not an object ([null] and [undefined]
    included) [attach] returns normally and leaves the segment as it was. *)
Theorem attach_skips_non_objects (userland : value) (segment : AppSegment) :
  typeof userland ≠ "object" ∨ userland = VNull →
  attach userland segment = (segment, Normal tt).
Proof.
  intros Hno. apply attach_not_object. intros [Htype Hnull]. by destruct Hno.
Qed.

(** C10.  When the validation of an object export fails, [attach] throws
    and the segment is exactly as it was before the call. *)
Theorem attach_validation_failure_is_atomic
    (userland : value) (error : ZodError) (segment : AppSegment) :
  is_object userland →
  AppSegmentConfigSchema_safeParse userland = ParseFailure error →
  (attach userland segment).1 = segment
  ∧ ∃ e, (attach userland segment).2 = Throw e.
Proof.
  intros Hobj Hparse.
  rewrite (attach_parse_failure _ _ _ Hobj Hparse). simpl. eauto.
Qed.

End AttacherProperties.

(** ** Loader trees and their chains *)

Lemma map_fold_sum_lookup {A} (f : A → nat) (m : gmap string A) (k : string) (x : A) :
  m !! k = Some x → f x ≤ map_fold (λ _ y acc, f y + acc) 0 m.
Proof.
  intros Hk. rewrite <- (insert_id m k x Hk), <- insert_delete_eq.
  rewrite map_fold_insert_L.
  - lia.
  - intros. lia.
  - apply lookup_delete_eq.
Qed.

Lemma tree_size_child (tree child : LoaderTree) (k : string) :
  parallelRoutes_of tree !! k = Some child → tree_size child < tree_size tree.
Proof.
  destruct tree as [segment routes modules]. simpl. intros Hk.
  apply (map_fold_sum_lookup tree_size) in Hk. lia.
Qed.

Lemma Chain_exists (tree : LoaderTree) : ∃ nodes, Chain tree nodes.
Proof.
  remember (tree_size tree) as n eqn:Hn.
  revert tree Hn. induction (lt_wf n) as [n _ IH]. intros tree ->.
  destruct (parallelRoutes_of tree !! "children") as [child|] eqn:Hchild.
  - destruct (IH (tree_size child) (tree_size_child _ _ _ Hchild) child eq_refl)
      as [rest Hrest].
    exists (tree :: rest). by eapply Chain_step.
  - exists [tree]. by apply Chain_last.
Qed.

Lemma Chain_unique (tree : LoaderTree) (nodes nodes' : list LoaderTree) :
  Chain tree nodes → Chain tree nodes' → nodes = nodes'.
Proof.
  intros Hc. revert nodes'.
  induction Hc as [node Hnone|node child rest Hchild _ IH]; intros nodes' Hc';
    inversion Hc'; subst; try congruence.
  f_equal. apply IH. congruence.
Qed.

Lemma Chain_length (tree : LoaderTree) (nodes : list LoaderTree) :
  Chain tree nodes → 1 ≤ length nodes ≤ tree_size tree.
Proof.
  induction 1 as [node Hnone|node child rest Hchild _ IH]; simpl.
  - destruct node. simpl. lia.
  - apply tree_size_child in Hchild. lia.
Qed.

(** ** The page-route walker *)

Section Walker.
Context `{Collaborators}.

Lemma visit_client (node : LoaderTree) :
  truthy (isClientComponent_of (ResolvedModule.module (getLayoutOrPageModule node))) = true →
  visit node = (node_segment node, Normal tt).
Proof. intros Hclient. unfold visit. by rewrite Hclient. Qed.

Lemma visit_server (node : LoaderTree) :
  truthy (isClientComponent_of (ResolvedModule.module (getLayoutOrPageModule node))) = false →
  visit node =
    attach (ResolvedModule.module (getLayoutOrPageModule node)) (node_segment node).
Proof. intros Hserver. unfold visit. by rewrite Hserver. Qed.

Lemma visit_frame (node : LoaderTree) :
  name (visit node).1 = segment_of node
  ∧ param (visit node).1 = param_of (segment_of node)
  ∧ filePath (visit node).1 = ResolvedModule.filePath (getLayoutOrPageModule node)
  ∧ isDynamicSegment (visit node).1 = isDynamicSegment_of (segment_of node).
Proof.
  destruct (truthy (isClientComponent_of
                      (ResolvedModule.module (getLayoutOrPageModule node)))) eqn:Hc.
  - by rewrite (visit_client _ Hc).
  - rewrite (visit_server _ Hc). apply (attach_frame _ (node_segment node)).
Qed.

Lemma walk_done (fuel : nat) (segments : list AppSegment) :
  walk fuel None segments = Some (Normal segments).
Proof. by destruct fuel. Qed.

(** With a turn of fuel for every node of the chain, the loop does what
    the turns over the chain do. *)
Lemma walk_chain (fuel : nat) (tree : LoaderTree) (nodes : list LoaderTree)
    (segments : list AppSegment) :
  Chain tree nodes → length nodes ≤ fuel →
  walk fuel (Some tree) segments =
    Some (match visit_chain nodes with
          | Normal pushed => Normal (segments ++ pushed)
          | Throw e => Throw e
          end).
Proof.
  intros Hc. revert fuel segments.
  induction Hc as [node Hnone|node child rest Hchild _ IH]; intros fuel segments Hfuel;
    (destruct fuel as [|fuel]; simpl in Hfuel; [lia|]); simpl.
  - destruct (visit node) as [segment [[]|e]]; [|done].
    by rewrite Hnone, walk_done.
  - destruct (visit node) as [segment [[]|e]]; [|done].
    rewrite Hchild, IH by lia.
    destruct (visit_chain rest); [|done]. by rewrite <- app_assoc.
Qed.

Lemma collectAppPageSegments_chain (routeModule : AppPageRouteModule.t)
    (nodes : list LoaderTree) :
  Chain (AppPageRouteModule.loaderTree (AppPageRouteModule.userland routeModule)) nodes →
  collectAppPageSegments routeModule = Some (visit_chain nodes).
Proof.
  intros Hc. unfold collectAppPageSegments.
  rewrite (walk_chain _ _ nodes) by (done || apply (Chain_length _ _ Hc)).
  by destruct (visit_chain nodes).
Qed.

(** The walk always ends: the loop never runs out of turns. *)
Lemma collectAppPageSegments_terminates (routeModule : AppPageRouteModule.t) :
  ∃ outcome, collectAppPageSegments routeModule = Some outcome.
Proof.
  destruct (Chain_exists (AppPageRouteModule.loaderTree
                            (AppPageRouteModule.userland routeModule))) as [nodes Hchain].
  rewrite (collectAppPageSegments_chain _ _ Hchain). eauto.
Qed.

Lemma visit_chain_normal (nodes : list LoaderTree) :
  (∀ node, node ∈ nodes → (visit node).2 = Normal tt) →
  visit_chain nodes = Normal ((λ node, (visit node).1) <$> nodes).
Proof.
  induction nodes as [|node nodes IH]; intros Hall; simpl; [done|].
  pose proof (Hall node ltac:(left)) as Hnode.
  destruct (visit node) as [segment c]. simpl in Hnode. subst c.
  rewrite IH; [done|]. intros node' Hin. apply Hall. by right.
Qed.

Lemma visit_chain_throw (before after : list LoaderTree) (node : LoaderTree) (e : exn) :
  (∀ node', node' ∈ before → (visit node').2 = Normal tt) →
  (visit node).2 = Throw e →
  visit_chain (before ++ node :: after) = Throw e.
Proof.
  induction before as [|node' before IH]; intros Hall Hthrow; simpl.
  - destruct (visit node) as [segment c]. simpl in Hthrow. by subst c.
  - pose proof (Hall node' ltac:(left)) as Hnode.
    destruct (visit node') as [segment c]. simpl in Hnode. subst c.
    rewrite IH; [done| |done]. intros n Hin. apply Hall. by right.
Qed.

Lemma visit_chain_inv (nodes : list LoaderTree) (segments : list AppSegment) :
  visit_chain nodes = Normal segments →
  segments = (λ node, (visit node).1) <$> nodes.
Proof.
  revert segments. induction nodes as [|node nodes IH]; intros segments; simpl.
  - by intros [= <-].
  - destruct (visit node) as [segment [[]|e]]; [|done]. simpl.
    destruct (visit_chain nodes) as [pushed|e]; [|done].
    intros [= <-]. by rewrite (IH pushed).
Qed.

End Walker.

(** ** The handler-route builder *)

Section Builder.
Context `{Collaborators}.

(** The builder on a path whose components after the first are
    [init ++ [last]]: one fresh segment per component, the last one given
    the file and handed to [attach]. *)
Lemma collectAppRouteSegments_parts (routeModule : AppRouteRouteModule.t)
    (init : list string) (last : string) :
  slice1 (split "/" (AppRouteRouteModule.pathname
                       (AppRouteRouteModule.definition routeModule)))
    = init ++ [last] →
  collectAppRouteSegments routeModule =
    match attach (AppRouteRouteModule.userland routeModule)
                 (set_filePath
                    (Some (AppRouteRouteModule.filename
                             (AppRouteRouteModule.definition routeModule)))
                    (path_segment last)) with
    | (_, Throw e) => Throw e
    | (segment', Normal _) => Normal ((path_segment <$> init) ++ [segment'])
    end.
Proof.
  intros Hparts. unfold collectAppRouteSegments. rewrite Hparts.
  rewrite length_app. simpl. replace (length init + 1 =? 0) with false
    by (symmetry; apply Nat.eqb_neq; lia).
  change (map ?f (init ++ [last])) with (f <$> (init ++ [last])).
  rewrite fmap_app, length_app, length_fmap. simpl.
  replace (length init + 1 - 1) with (length (path_segment <$> init))
    by (rewrite length_fmap; lia).
  rewrite list_lookup_middle by done.
  destruct (attach _ _) as [segment' [[]|e]]; [|done].
  rewrite insert_app_r_alt by done. by rewrite Nat.sub_diag.
Qed.

Lemma collectAppRouteSegments_frame (routeModule : AppRouteRouteModule.t)
    (segments : list AppSegment) :
  collectAppRouteSegments routeModule = Normal segments →
  Forall (λ segment,
            isDynamicSegment segment = isDynamicSegment_of (name segment)
            ∧ param segment = param_of (name segment)) segments.
Proof.
  unfold collectAppRouteSegments.
  destruct (length _ =? 0); [done|].
  set (built := map _ _).
  assert (Forall (λ segment,
            isDynamicSegment segment = isDynamicSegment_of (name segment)
            ∧ param segment = param_of (name segment)) built) as Hbuilt.
  { apply Forall_forall. intros segment Hin. apply list_elem_of_In in Hin.
    apply in_map_iff in Hin as (part & <- & _). done. }
  destruct (built !! (length built - 1)) as [segment|] eqn:Hlast; [|done].
  pose proof (attach_frame (AppRouteRouteModule.userland routeModule)
                (set_filePath
                   (Some (AppRouteRouteModule.filename
                            (AppRouteRouteModule.definition routeModule))) segment))
    as (Hname & Hparam & _ & Hdyn).
  destruct (attach _ _) as [segment' [[]|e]]; [|done]. simpl in *.
  intros [= <-]. apply Forall_insert; [done|].
  rewrite Hname, Hparam, Hdyn.
  by apply (Forall_lookup_1 _ _ _ _ Hbuilt Hlast).
Qed.

End Builder.

(** ** Properties of the walker and the builder *)

Section CollectionProperties.
Context `{Collaborators}.

(** C2 (amended).  The builder throws the invariant error exactly when the
    path template has no [/] at all.  For the template [/] one empty
    component is left after the first is dropped: the builder makes one
    segment with the empty name and the file of the module, hands it to
    [attach], and returns it alone unless [attach] throws. *)
Theorem invariant_error_iff_no_slash (routeModule : AppRouteRouteModule.t) :
  (collectAppRouteSegments routeModule
     = Throw (InvariantError "Expected at least one segment")
   ↔ occurs "/" (AppRouteRouteModule.pathname
                   (AppRouteRouteModule.definition routeModule)) = false)
  ∧ (AppRouteRouteModule.pathname (AppRouteRouteModule.definition routeModule) = "/" →
     collectAppRouteSegments routeModule =
       match attach (AppRouteRouteModule.userland routeModule)
               {| name := ""; param := None;
                  filePath := Some (AppRouteRouteModule.filename
                                      (AppRouteRouteModule.definition routeModule));
                  config := None; isDynamicSegment := false;
                  generateStaticParams := None |} with
       | (_, Throw e) => Throw e
       | (segment, Normal _) => Normal [segment]
       end).
Proof.
  split.
  - rewrite <- slice1_split_empty. unfold collectAppRouteSegments.
    destruct (length (slice1 _) =? 0) eqn:Hlen.
    + apply Nat.eqb_eq in Hlen. done.
    + apply Nat.eqb_neq in Hlen. split; [|done].
      destruct (_ !! _); [|done].
      destruct (attach _ _) as [segment' [[]|e]] eqn:Hattach; [done|].
      intros [= ->].
      destruct (attach_throws_Error _ _ (InvariantError "Expected at least one segment")
                  ltac:(by rewrite Hattach)) as [message Hmessage].
      discriminate.
  - intros Hpath. rewrite (collectAppRouteSegments_parts _ [] ""); [done|].
    by rewrite Hpath.
Qed.

(** C3 (amended).  Let [nodes] be the chain of a loader tree: the nodes met
    by following [children], down to the first node without that entry.
    If no turn of the walker throws on them, the walker returns one segment
    per node, in the order of the chain, the [i]-th being the one built for
    the [i]-th node.  If the turn for some node throws and the turns before
    it do not, the walker throws that error and returns no segments. *)
Theorem walker_follows_chain (routeModule : AppPageRouteModule.t)
    (nodes : list LoaderTree) :
  Chain (AppPageRouteModule.loaderTree (AppPageRouteModule.userland routeModule)) nodes →
  ((∀ node, node ∈ nodes → (visit node).2 = Normal tt) →
   ∃ segments,
     collectAppPageSegments routeModule = Some (Normal segments)
     ∧ length segments = length nodes
     ∧ name <$> segments = segment_of <$> nodes
     ∧ ∀ i node, nodes !! i = Some node → segments !! i = Some (visit node).1)
  ∧ (∀ before node after e,
       nodes = before ++ node :: after →
       (∀ node', node' ∈ before → (visit node').2 = Normal tt) →
       (visit node).2 = Throw e →
       collectAppPageSegments routeModule = Some (Throw e)).
Proof.
  intros Hchain. rewrite (collectAppPageSegments_chain _ _ Hchain). split.
  - intros Hall. rewrite (visit_chain_normal _ Hall). eexists. split; [done|].
    split; [by rewrite length_fmap|]. split.
    + rewrite <- list_fmap_compose. apply list_fmap_ext.
      intros i node _. simpl. apply visit_frame.
    + intros i node Hi. by rewrite list_lookup_fmap, Hi.
  - intros before node after e -> Hbefore Hthrow.
    by rewrite (visit_chain_throw _ _ _ _ Hbefore Hthrow).
Qed.

(** C4 (amended).  For the path template [/a/[id]/b], with [getSegmentParam]
    resolving [[id]] to [id]: the builder makes the segments [a], [[id]] and
    [b] in that order, gives only [b] the file of the module and hands only
    [b] to [attach].  If [attach] returns, the builder returns the three
    segments, the first two without file, configuration or
    [generateStaticParams], the middle one with [param] [id], the last as
    [attach] left it (still named [b], with the file).  If [attach] throws,
    the builder throws that error. *)
Theorem route_a_id_b (routeModule : AppRouteRouteModule.t) :
  AppRouteRouteModule.pathname (AppRouteRouteModule.definition routeModule) = "/a/[id]/b" →
  SegmentParam.param <$> getSegmentParam "[id]" = Some "id" →
  (∀ last,
     attach (AppRouteRouteModule.userland routeModule)
       {| name := "b"; param := None;
          filePath := Some (AppRouteRouteModule.filename
                              (AppRouteRouteModule.definition routeModule));
          config := None; isDynamicSegment := false;
          generateStaticParams := None |} = (last, Normal tt) →
     collectAppRouteSegments routeModule =
       Normal
         [ {| name := "a"; param := None; filePath := None; config := None;
              isDynamicSegment := false; generateStaticParams := None |};
           {| name := "[id]"; param := Some "id"; filePath := None;
              config := None; isDynamicSegment := true;
              generateStaticParams := None |};
           last ]
     ∧ name last = "b"
     ∧ filePath last
         = Some (AppRouteRouteModule.filename (AppRouteRouteModule.definition routeModule)))
  ∧ (∀ last e,
       attach (AppRouteRouteModule.userland routeModule)
         {| name := "b"; param := None;
            filePath := Some (AppRouteRouteModule.filename
                                (AppRouteRouteModule.definition routeModule));
            config := None; isDynamicSegment := false;
            generateStaticParams := None |} = (last, Throw e) →
       collectAppRouteSegments routeModule = Throw e).
Proof.
  intros Hpath Hparam.
  rewrite (collectAppRouteSegments_parts _ ["a"; "[id]"] "b") by (by rewrite Hpath).
  unfold path_segment, param_of, set_filePath. simpl. rewrite Hparam.
  change (isDynamicSegment_of "a") with false.
  change (isDynamicSegment_of "[id]") with true.
  change (isDynamicSegment_of "b") with false.
  split.
  - intros last Hattach.
    pose proof (attach_frame (AppRouteRouteModule.userland routeModule)
                  (mkAppSegment "b" None
                     (Some (AppRouteRouteModule.filename
                              (AppRouteRouteModule.definition routeModule)))
                     None false None)) as (Hname & _ & Hfile & _).
    rewrite Hattach in Hname, Hfile |- *. done.
  - intros last e Hattach. by rewrite Hattach.
Qed.

(** C7.  A turn of the walker for a node whose module counts as a client
    component does not run [attach]: whatever the module exports, the turn
    completes normally with the segment as first built, [config] and
    [generateStaticParams] unset; and that is the segment at the position
    of the node in what the walker returns. *)
Theorem client_component_is_not_attached (node : LoaderTree) :
  truthy (isClientComponent_of (ResolvedModule.module (getLayoutOrPageModule node))) = true →
  visit node = (node_segment node, Normal tt)
  ∧ config (visit node).1 = None
  ∧ generateStaticParams (visit node).1 = None
  ∧ ∀ routeModule nodes segments i,
      Chain (AppPageRouteModule.loaderTree (AppPageRouteModule.userland routeModule)) nodes →
      nodes !! i = Some node →
      collectAppPageSegments routeModule = Some (Normal segments) →
      ∃ segment,
        segments !! i = Some segment
        ∧ config segment = None ∧ generateStaticParams segment = None.
Proof.
  intros Hclient. rewrite (visit_client _ Hclient). repeat split.
  intros routeModule nodes segments i Hchain Hi.
  rewrite (collectAppPageSegments_chain _ _ Hchain). intros [= Hsegments].
  apply visit_chain_inv in Hsegments as ->.
  exists (node_segment node). rewrite list_lookup_fmap, Hi. simpl.
  by rewrite (visit_client _ Hclient).
Qed.

(** C8.  For every segment the walker or the builder returns,
    [isDynamicSegment] is true exactly when the name matches [\[.*\]] from
    end to end, and [param] is what [getSegmentParam] extracts from the
    name when [isDynamicSegment] is true, absent when the extraction gives
    nothing or [isDynamicSegment] is false. *)
Theorem produced_segment_dynamic_and_param (segment : AppSegment) :
  Produced segment →
  (isDynamicSegment segment = true ↔ Matches bracketed (name segment))
  ∧ param segment =
      (if isDynamicSegment segment
       then SegmentParam.param <$> getSegmentParam (name segment)
       else None).
Proof.
  intros (routeModule & segments & Hcollect & Hin).
  assert (isDynamicSegment segment = isDynamicSegment_of (name segment)
          ∧ param segment = param_of (name segment)) as [Hdyn Hparam].
  { destruct routeModule as [m|m|]; simpl in Hcollect.
    - injection Hcollect as Hcollect.
      apply collectAppRouteSegments_frame in Hcollect.
      by apply (proj1 (Forall_forall _ _) Hcollect).
    - destruct (Chain_exists (AppPageRouteModule.loaderTree
                                (AppPageRouteModule.userland m))) as [nodes Hchain].
      rewrite (collectAppPageSegments_chain _ _ Hchain) in Hcollect.
      injection Hcollect as Hcollect. apply visit_chain_inv in Hcollect as ->.
      apply list_elem_of_fmap in Hin as (node & -> & _).
      destruct (visit_frame node) as (-> & -> & _ & ->). done.
    - done. }
  split.
  - rewrite Hdyn. apply test_anchored_Matches.
  - rewrite Hparam. unfold param_of. by rewrite <- Hdyn.
Qed.

End CollectionProperties.

(** ** More on strings *)

Lemma split_length (sep : ascii) (s : string) :
  length (split sep s) = S (occurrences sep s).
Proof.
  induction s as [|c s IH]; simpl; [done|].
  pose proof (split_nonempty sep s) as Hne.
  destruct (Ascii.eqb c sep); simpl; [by rewrite IH|].
  destruct (split sep s); [done|]. exact IH.
Qed.

Lemma join_split (sep : ascii) (s : string) :
  join (String sep "") (split sep s) = s.
Proof.
  induction s as [|c s IH]; simpl; [done|].
  pose proof (split_nonempty sep s) as Hne.
  destruct (Ascii.eqb c sep) eqn:Hc.
  - apply Ascii.eqb_eq in Hc as ->.
    rewrite join_cons by done. by rewrite IH.
  - destruct (split sep s) as [|part parts]; [done|].
    destruct parts as [|part' parts].
    + simpl in *. by rewrite IH.
    + rewrite join_cons by done. rewrite join_cons in IH by done.
      rewrite append_cons. by rewrite IH.
Qed.

Lemma split_parts (sep : ascii) (s : string) :
  Forall (λ part, occurs sep part = false) (split sep s).
Proof.
  induction s as [|c s IH]; simpl.
  - by repeat constructor.
  - pose proof (split_nonempty sep s) as Hne.
    destruct (Ascii.eqb c sep) eqn:Hc.
    + by constructor.
    + destruct (split sep s) as [|part parts]; [done|].
      apply Forall_cons in IH as [Hpart Hparts].
      constructor; [|done]. simpl. by rewrite Hc.
Qed.

Lemma split_before_first (sep : ascii) (before rest : string) :
  occurs sep before = false →
  split sep (before +:+ String sep rest) = before :: split sep rest.
Proof.
  induction before as [|c before IH]; intros Hbefore.
  - rewrite append_empty_l. simpl. by rewrite Ascii.eqb_refl.
  - simpl in Hbefore. apply orb_false_iff in Hbefore as [Hc Hbefore].
    rewrite append_cons. simpl. rewrite Hc, (IH Hbefore). done.
Qed.

Lemma list_snoc_cases {A} (l : list A) :
  l = [] ∨ ∃ init last, l = init ++ [last].
Proof. induction l using rev_ind; eauto. Qed.

Lemma callable_export (userland : value) :
  has_property "generateStaticParams" userland
  && String.eqb (typeof (get_property "generateStaticParams" userland)) "function" = true
  ↔ ∃ f, exports_generateStaticParams userland f.
Proof.
  unfold exports_generateStaticParams. split.
  - intros Hc. apply andb_true_iff in Hc as [_ Ht].
    destruct (get_property _ _) as [| | | | |f|]; simpl in Ht; try done. eauto.
  - intros [f Hf]. rewrite Hf. simpl. rewrite andb_true_r.
    destruct userland as [| | | | | |props]; simpl in Hf |- *; try done.
    apply bool_decide_eq_true. destruct (props !! "generateStaticParams"); [eauto|done].
Qed.

Lemma runtime_edge_lookup (data : gmap string value) :
  strict_equals_string (default VUndefined (data !! "runtime")) "edge" = true
  ↔ data !! "runtime" = Some (VString "edge").
Proof.
  split.
  - destruct (data !! "runtime") as [[| | | |s| |]|]; simpl; try done.
    intros Hs. apply String.eqb_eq in Hs. by subst.
  - by intros ->.
Qed.

(** ** More on the attacher *)

Section AttacherExtras.
Context `{Collaborators}.

(** X1.  [attach] changes at most [config] and [generateStaticParams]:
    the name, the parameter, the file and the dynamic flag of the segment
    are the same after the call, whether it returns or throws. *)
Theorem attach_changes_only_config_and_generateStaticParams
    (userland : value) (segment : AppSegment) :
  (attach userland segment).1
  = set_generateStaticParams (generateStaticParams (attach userland segment).1)
      (set_config (config (attach userland segment).1) segment).
Proof.
  pose proof (attach_frame userland segment) as (Hname & Hparam & Hfile & Hdyn).
  destruct (attach userland segment).1. destruct segment. simpl in *. by subst.
Qed.

(** X2.  [attach] is idempotent: run again on the segment it left, with
    the same export, it leaves the same segment and completes the same
    way. *)
Theorem attach_idempotent (userland : value) (segment : AppSegment) :
  attach userland (attach userland segment).1 = attach userland segment.
Proof.
  destruct (is_object_cases userland) as [Hobj|Hobj].
  - destruct (AppSegmentConfigSchema_safeParse userland) as [data|error] eqn:Hparse.
    + rewrite !(attach_parse_success _ _ _ Hobj Hparse).
      destruct segment as [n p fp c d g]. simpl.
      destruct (bool_decide _), (_ && _); simpl; try reflexivity;
        destruct (runtime_is_edge _) eqn:Hedge; simpl; rewrite ?Hedge; reflexivity.
    + by rewrite !(attach_parse_failure _ _ _ Hobj Hparse).
  - by rewrite !(attach_not_object _ _ Hobj).
Qed.

(** X3.  On a segment without configuration, [attach] throws in exactly
    two cases, both for an object export: its validation fails, or it
    passes with the runtime [edge] and the export has a callable
    [generateStaticParams]. *)
Theorem attach_throws_iff (userland : value) (segment : AppSegment) :
  config segment = None →
  (∃ e, (attach userland segment).2 = Throw e)
  ↔ is_object userland
    ∧ ((∃ error, AppSegmentConfigSchema_safeParse userland = ParseFailure error)
       ∨ (∃ data f,
            AppSegmentConfigSchema_safeParse userland = ParseSuccess data
            ∧ data !! "runtime" = Some (VString "edge")
            ∧ exports_generateStaticParams userland f)).
Proof.
  intros Hconfig.
  destruct (is_object_cases userland) as [Hobj|Hobj].
  - destruct (AppSegmentConfigSchema_safeParse userland) as [data|error] eqn:Hparse.
    + rewrite (attach_parse_success _ _ _ Hobj Hparse). simpl.
      destruct (_ && _) eqn:Hcall.
      * apply callable_export in Hcall as [f Hf].
        unfold runtime_is_edge. simpl.
        destruct (bool_decide _) eqn:Hkeys; simpl.
        -- destruct (strict_equals_string _ _) eqn:Hedge.
           ++ apply runtime_edge_lookup in Hedge. split; [|eauto].
              intros _. split; [done|]. right. eauto.
           ++ split; [by intros [e ?]|].
              intros [_ [[error [=]]|(data' & f' & [= <-] & Hrt & _)]].
              apply runtime_edge_lookup in Hrt. congruence.
        -- rewrite Hconfig. split; [by intros [e ?]|].
           intros [_ [[error [=]]|(data' & f' & [= <-] & Hrt & _)]].
           apply Object_keys_empty in Hkeys. subst data.
           by rewrite lookup_empty in Hrt.
      * split; [by intros [e ?]|].
        intros [_ [[error [=]]|(data' & f' & _ & _ & Hf)]].
        assert (has_property "generateStaticParams" userland
                && String.eqb (typeof (get_property "generateStaticParams" userland))
                     "function" = true) by (apply callable_export; eauto).
        congruence.
    + rewrite (attach_parse_failure _ _ _ Hobj Hparse). simpl.
      split; [|eauto]. intros _. split; [done|]. left. eauto.
  - rewrite (attach_not_object _ _ Hobj). simpl.
    split; [by intros [e ?]|]. by intros [? _].
Qed.

(** X4.  Every error [attach] throws is a plain [Error], and its message
    is either the edge message or begins with the header that names the
    file of the segment. *)
Theorem attach_error_messages (userland : value) (segment : AppSegment) (e : exn) :
  (attach userland segment).2 = Throw e →
  e = Error edge_error_message
  ∨ ∃ rest, e = Error (invalid_options_header (filePath segment) +:+ rest).
Proof.
  destruct (is_object_cases userland) as [Hobj|Hobj].
  - destruct (AppSegmentConfigSchema_safeParse userland) as [data|error] eqn:Hparse.
    + rewrite (attach_parse_success _ _ _ Hobj Hparse). simpl.
      destruct (_ && _); simpl; [|done].
      destruct (runtime_is_edge _); [|done]. intros [= <-]. by left.
    + rewrite (attach_parse_failure _ _ _ Hobj Hparse). cbn [snd].
      intros [= <-]. right.
      destruct (normalizeZodErrors error) as [|issue issues].
      * exists "". cbn [map join]. by rewrite append_empty_r.
      * eexists. reflexivity.
  - by rewrite (attach_not_object _ _ Hobj).
Qed.

(** X5.  When the validation of an object export succeeds,
    [generateStaticParams] of the segment becomes the export of that name
    if it is a function, and is left as it was otherwise: an export of
    that name that is no function is ignored without an error.  This
    holds also when [attach] then throws the edge error. *)
Theorem attach_generateStaticParams
    (userland : value) (data : gmap string value) (segment : AppSegment) :
  is_object userland →
  AppSegmentConfigSchema_safeParse userland = ParseSuccess data →
  generateStaticParams (attach userland segment).1
  = match get_property "generateStaticParams" userland with
    | VFunction f => Some f
    | _ => generateStaticParams segment
    end
  ∧ ((∀ f, ¬ exports_generateStaticParams userland f) →
     (attach userland segment).2 = Normal tt).
Proof.
  intros Hobj Hparse.
  rewrite (attach_parse_success _ _ _ Hobj Hparse). simpl.
  destruct (_ && _) eqn:Hcall.
  - apply callable_export in Hcall as [f Hf]. unfold exports_generateStaticParams in *.
    rewrite Hf. simpl. split; [done|]. intros Hno. by destruct (Hno f).
  - split; [|done].
    assert (∀ f, get_property "generateStaticParams" userland ≠ VFunction f) as Hno.
    { intros f Hf.
      assert (has_property "generateStaticParams" userland
              && String.eqb (typeof (get_property "generateStaticParams" userland))
                   "function" = true) by (apply callable_export; by exists f).
      congruence. }
    destruct (get_property _ _) as [| | | | |f|]; try (by destruct (bool_decide _)).
    by destruct (Hno f).
Qed.

(** After a normal return on a segment without configuration, a
    configuration on the segment is the validated one and has a key. *)
Lemma attach_returns_config (userland : value) (segment segment' : AppSegment)
    (data : gmap string value) :
  config segment = None →
  attach userland segment = (segment', Normal tt) →
  config segment' = Some data →
  AppSegmentConfigSchema_safeParse userland = ParseSuccess data
  ∧ Object_keys data ≠ [].
Proof.
  intros Hnone.
  destruct (is_object_cases userland) as [Hobj|Hobj].
  - destruct (AppSegmentConfigSchema_safeParse userland) as [data'|error] eqn:Hparse.
    + rewrite (attach_parse_success _ _ _ Hobj Hparse). simpl.
      destruct (bool_decide _) eqn:Hkeys.
      * apply bool_decide_eq_true in Hkeys.
        assert (Object_keys data' ≠ []) by (destruct (Object_keys data'); [simpl in *; lia|done]).
        destruct (_ && _); [destruct (runtime_is_edge _); [done|]|];
          intros [= <-]; simpl; intros [= <-]; done.
      * destruct (_ && _); [destruct (runtime_is_edge _); [done|]|];
          intros [= <-]; simpl; congruence.
    + by rewrite (attach_parse_failure _ _ _ Hobj Hparse).
  - rewrite (attach_not_object _ _ Hobj). intros [= <-]. congruence.
Qed.

End AttacherExtras.

(** ** More on the walker and the builder *)

Section CollectionExtras.
Context `{Collaborators}.

Lemma visit_throws_Error (node : LoaderTree) (e : exn) :
  (visit node).2 = Throw e → ∃ message, e = Error message.
Proof.
  destruct (truthy (isClientComponent_of
                      (ResolvedModule.module (getLayoutOrPageModule node)))) eqn:Hc.
  - by rewrite (visit_client _ Hc).
  - rewrite (visit_server _ Hc). apply attach_throws_Error.
Qed.

Lemma visit_chain_throws_Error (nodes : list LoaderTree) (e : exn) :
  visit_chain nodes = Throw e → ∃ message, e = Error message.
Proof.
  induction nodes as [|node nodes IH]; simpl; [done|].
  pose proof (visit_throws_Error node) as Hnode.
  destruct (visit node) as [segment [[]|e']]; simpl in Hnode.
  - destruct (visit_chain nodes); [done|]. intros [= <-]. by apply IH.
  - intros [= <-]. by apply Hnode.
Qed.

Lemma visit_chain_inv_normal (nodes : list LoaderTree) (segments : list AppSegment) :
  visit_chain nodes = Normal segments →
  ∀ node, node ∈ nodes → (visit node).2 = Normal tt.
Proof.
  revert segments. induction nodes as [|node nodes IH]; intros segments; simpl.
  - intros _ node Hin. by apply elem_of_nil in Hin.
  - destruct (visit node) as [segment [[]|e]] eqn:Hvisit; [|done].
    destruct (visit_chain nodes) as [pushed|e]; [|done].
    intros _ node' Hin. apply elem_of_cons in Hin as [->|Hin].
    + by rewrite Hvisit.
    + by apply (IH pushed).
Qed.

(** What a normal return of the walker is made of. *)
Lemma walker_returns (routeModule : AppPageRouteModule.t) (segments : list AppSegment) :
  collectAppPageSegments routeModule = Some (Normal segments) →
  ∃ nodes,
    Chain (AppPageRouteModule.loaderTree (AppPageRouteModule.userland routeModule)) nodes
    ∧ segments = (λ node, (visit node).1) <$> nodes
    ∧ ∀ node, node ∈ nodes → (visit node).2 = Normal tt.
Proof.
  destruct (Chain_exists (AppPageRouteModule.loaderTree
                            (AppPageRouteModule.userland routeModule))) as [nodes Hchain].
  rewrite (collectAppPageSegments_chain _ _ Hchain). intros [= Hnormal].
  exists nodes. split; [done|]. split.
  - by apply visit_chain_inv.
  - by apply (visit_chain_inv_normal _ segments).
Qed.

(** What a normal return of the builder is made of. *)
Lemma builder_returns (routeModule : AppRouteRouteModule.t) (segments : list AppSegment) :
  collectAppRouteSegments routeModule = Normal segments →
  ∃ init last segment',
    slice1 (split "/" (AppRouteRouteModule.pathname
                         (AppRouteRouteModule.definition routeModule)))
      = init ++ [last]
    ∧ attach (AppRouteRouteModule.userland routeModule)
        (set_filePath
           (Some (AppRouteRouteModule.filename
                    (AppRouteRouteModule.definition routeModule)))
           (path_segment last)) = (segment', Normal tt)
    ∧ segments = (path_segment <$> init) ++ [segment'].
Proof.
  destruct (list_snoc_cases
              (slice1 (split "/" (AppRouteRouteModule.pathname
                                    (AppRouteRouteModule.definition routeModule)))))
    as [Hnil|(init & last & Hparts)].
  - unfold collectAppRouteSegments. by rewrite Hnil.
  - rewrite (collectAppRouteSegments_parts _ _ _ Hparts).
    destruct (attach _ _) as [segment' [[]|e]] eqn:Hattach; [|done].
    intros [= <-]. eauto 10.
Qed.

Lemma builder_names (routeModule : AppRouteRouteModule.t) (segments : list AppSegment) :
  collectAppRouteSegments routeModule = Normal segments →
  name <$> segments
  = slice1 (split "/" (AppRouteRouteModule.pathname
                         (AppRouteRouteModule.definition routeModule))).
Proof.
  intros (init & last & segment' & -> & Hattach & ->)%builder_returns.
  rewrite fmap_app, <- list_fmap_compose. simpl. f_equal.
  - by apply list_fmap_id.
  - pose proof (attach_frame (AppRouteRouteModule.userland routeModule)
                  (set_filePath
                     (Some (AppRouteRouteModule.filename
                              (AppRouteRouteModule.definition routeModule)))
                     (path_segment last))) as (Hname & _).
    rewrite Hattach in Hname. simpl in Hname. by rewrite Hname.
Qed.

(** How the builder throws: the invariant error for a path without [/],
    otherwise an [Error] of [attach]. *)
Lemma builder_throws (routeModule : AppRouteRouteModule.t) (e : exn) :
  collectAppRouteSegments routeModule = Throw e →
  (e = InvariantError "Expected at least one segment"
   ∧ occurs "/" (AppRouteRouteModule.pathname
                   (AppRouteRouteModule.definition routeModule)) = false)
  ∨ (∃ message, e = Error message)
     ∧ occurs "/" (AppRouteRouteModule.pathname
                     (AppRouteRouteModule.definition routeModule)) = true.
Proof.
  destruct (list_snoc_cases
              (slice1 (split "/" (AppRouteRouteModule.pathname
                                    (AppRouteRouteModule.definition routeModule)))))
    as [Hnil|(init & last & Hparts)].
  - unfold collectAppRouteSegments. rewrite Hnil. simpl. intros [= <-]. left.
    split; [done|]. apply slice1_split_empty. by rewrite Hnil.
  - rewrite (collectAppRouteSegments_parts _ _ _ Hparts).
    destruct (attach _ _) as [segment' [[]|e']] eqn:Hattach; [done|].
    intros [= <-]. right. split.
    + exact (attach_throws_Error _ _ e' (f_equal snd Hattach)).
    + destruct (occurs _ _) eqn:Hocc; [done|].
      apply slice1_split_empty in Hocc. rewrite Hparts, length_app in Hocc.
      simpl in Hocc. lia.
Qed.

Lemma builder_no_slash (routeModule : AppRouteRouteModule.t) :
  occurs "/" (AppRouteRouteModule.pathname
                (AppRouteRouteModule.definition routeModule)) = false →
  collectAppRouteSegments routeModule
  = Throw (InvariantError "Expected at least one segment").
Proof.
  intros Hocc. apply slice1_split_empty in Hocc.
  unfold collectAppRouteSegments. by rewrite Hocc.
Qed.

(** Where a returned segment comes from: it is as first built, or it is
    what [attach] left, on a normal return, of a segment first built. *)
Lemma Produced_origin (segment : AppSegment) :
  Produced segment →
  (config segment = None ∧ generateStaticParams segment = None)
  ∨ ∃ userland built,
      config built = None ∧ generateStaticParams built = None
      ∧ attach userland built = (segment, Normal tt).
Proof.
  intros (routeModule & segments & Hcollect & Hin).
  destruct routeModule as [m|m|]; simpl in Hcollect; [| |done].
  - injection Hcollect as Hcollect.
    apply builder_returns in Hcollect as (init & last & segment' & _ & Hattach & ->).
    apply elem_of_app in Hin as [Hin|Hin].
    + apply list_elem_of_fmap in Hin as (part & -> & _). by left.
    + apply list_elem_of_singleton in Hin as ->. right.
      eexists _, _. split; [|split; [|exact Hattach]]; done.
  - apply walker_returns in Hcollect as (nodes & _ & -> & Hnormal).
    apply list_elem_of_fmap in Hin as (node & -> & Hin).
    specialize (Hnormal node Hin).
    destruct (truthy (isClientComponent_of
                        (ResolvedModule.module (getLayoutOrPageModule node)))) eqn:Hc.
    + rewrite (visit_client _ Hc). by left.
    + rewrite (visit_server _ Hc) in Hnormal |- *. right.
      exists (ResolvedModule.module (getLayoutOrPageModule node)), (node_segment node).
      split; [done|]. split; [done|].
      destruct (attach _ _) as [segment' c]. simpl in *. by subst.
Qed.

Lemma Produced_frame (segment : AppSegment) :
  Produced segment →
  isDynamicSegment segment = isDynamicSegment_of (name segment)
  ∧ param segment = param_of (name segment).
Proof.
  intros (routeModule & segments & Hcollect & Hin).
  destruct routeModule as [m|m|]; simpl in Hcollect; [| |done].
  - injection Hcollect as Hcollect.
    apply collectAppRouteSegments_frame in Hcollect.
    by apply (proj1 (Forall_forall _ _) Hcollect).
  - apply walker_returns in Hcollect as (nodes & _ & -> & _).
    apply list_elem_of_fmap in Hin as (node & -> & _).
    by destruct (visit_frame node) as (-> & -> & _ & ->).
Qed.

(** X6.  No segment that [collectSegments] returns has both a
    configuration selecting the edge runtime and [generateStaticParams]. *)
Theorem produced_segment_edge_exclusive (segment : AppSegment) :
  Produced segment →
  ¬ (runtime_is_edge segment = true ∧ is_Some (generateStaticParams segment)).
Proof.
  intros [[_ Hnone]|(userland & built & _ & Hnone & Hattach)]%Produced_origin.
  - rewrite Hnone. by intros [_ [f ?]].
  - by apply (attach_returns_edge_exclusive userland built).
Qed.

(** X7.  A configuration on a returned segment is never an object without
    keys: [config] is either unset or has at least one key. *)
Theorem produced_segment_config_has_key
    (segment : AppSegment) (data : gmap string value) :
  Produced segment →
  config segment = Some data →
  Object_keys data ≠ [] ∧ data ≠ ∅.
Proof.
  intros [[Hnone _]|(userland & built & Hnone & _ & Hattach)]%Produced_origin Hconfig.
  - congruence.
  - destruct (attach_returns_config _ _ _ _ Hnone Hattach Hconfig) as [_ Hkeys].
    split; [done|]. intros ->. apply Hkeys.
    unfold Object_keys. by rewrite map_to_list_empty.
Qed.

(** X8.  When the builder returns, the names of the segments are the
    components of the path template after the first [/], in order, and
    there are as many segments as the template has [/]; every segment but
    the last has no file, no configuration and no [generateStaticParams];
    the last has the file of the route module. *)
Theorem builder_segments (routeModule : AppRouteRouteModule.t)
    (segments : list AppSegment) :
  collectAppRouteSegments routeModule = Normal segments →
  name <$> segments
    = slice1 (split "/" (AppRouteRouteModule.pathname
                           (AppRouteRouteModule.definition routeModule)))
  ∧ length segments
    = occurrences "/" (AppRouteRouteModule.pathname
                         (AppRouteRouteModule.definition routeModule))
  ∧ (∀ i segment,
       segments !! i = Some segment → S i < length segments →
       filePath segment = None ∧ config segment = None
       ∧ generateStaticParams segment = None)
  ∧ ∃ segment,
      last segments = Some segment
      ∧ filePath segment
        = Some (AppRouteRouteModule.filename
                  (AppRouteRouteModule.definition routeModule)).
Proof.
  intros Hcollect. pose proof (builder_names _ _ Hcollect) as Hnames.
  split; [done|]. split.
  { rewrite <- (length_fmap name), Hnames. unfold slice1.
    rewrite length_drop, split_length. lia. }
  apply builder_returns in Hcollect as (init & last & segment' & _ & Hattach & ->).
  split.
  - intros i segment Hi Hlt. rewrite length_app, length_fmap in Hlt. simpl in Hlt.
    rewrite lookup_app_l in Hi by (rewrite length_fmap; lia).
    rewrite list_lookup_fmap in Hi.
    destruct (init !! i); simplify_eq/=. done.
  - exists segment'. split; [apply last_snoc|].
    pose proof (attach_frame (AppRouteRouteModule.userland routeModule)
                  (set_filePath
                     (Some (AppRouteRouteModule.filename
                              (AppRouteRouteModule.definition routeModule)))
                     (path_segment last))) as (_ & _ & Hfile & _).
    by rewrite Hattach in Hfile.
Qed.

(** X9.  For a path template that begins with [/], the names of the
    returned segments joined by [/], behind a [/], give the template
    back. *)
Theorem builder_names_join_to_pathname (routeModule : AppRouteRouteModule.t)
    (segments : list AppSegment) (rest : string) :
  AppRouteRouteModule.pathname (AppRouteRouteModule.definition routeModule)
    = String "/" rest →
  collectAppRouteSegments routeModule = Normal segments →
  String "/" (join "/" (name <$> segments))
  = AppRouteRouteModule.pathname (AppRouteRouteModule.definition routeModule).
Proof.
  intros Hpath Hcollect. rewrite (builder_names _ _ Hcollect), Hpath.
  change (split "/" (String "/" rest)) with ("" :: split "/" rest).
  unfold slice1. simpl. f_equal. apply (join_split "/").
Qed.

(** X10.  The builder drops whatever stands before the first [/] of the
    path template without looking at it: two route modules whose
    templates differ only there give the same outcome. *)
Theorem builder_ignores_before_first_slash
    (before rest file : string) (userland : value) :
  occurs "/" before = false →
  collectAppRouteSegments
    (AppRouteRouteModule.mk
       (AppRouteRouteModule.mkDefinition (before +:+ String "/" rest) file) userland)
  = collectAppRouteSegments
      (AppRouteRouteModule.mk
         (AppRouteRouteModule.mkDefinition (String "/" rest) file) userland).
Proof.
  intros Hbefore. unfold collectAppRouteSegments. simpl AppRouteRouteModule.pathname.
  cbn [AppRouteRouteModule.definition AppRouteRouteModule.pathname].
  rewrite (split_before_first "/" before rest Hbefore).
  change (split "/" (String "/" rest)) with ("" :: split "/" rest).
  reflexivity.
Qed.

(** X11.  No name of a segment the builder returns has a [/] in it. *)
Theorem builder_names_have_no_slash (routeModule : AppRouteRouteModule.t)
    (segments : list AppSegment) (segment : AppSegment) :
  collectAppRouteSegments routeModule = Normal segments →
  segment ∈ segments →
  occurs "/" (name segment) = false.
Proof.
  intros Hcollect Hin. pose proof (builder_names _ _ Hcollect) as Hnames.
  assert (name segment ∈ name <$> segments) as Hname by (by apply list_elem_of_fmap_2).
  rewrite Hnames in Hname. unfold slice1 in Hname.
  apply list_elem_of_lookup in Hname as [i Hi]. rewrite lookup_drop in Hi.
  by apply (Forall_lookup_1 _ _ _ _ (split_parts "/" _) Hi).
Qed.

(** X12.  [collectSegments] throws an invariant error in two cases only:
    for a route module of neither kind, and for a handler route whose path
    template has no [/].  In particular a page route never throws one.
    Every other error it throws is an [Error] of [attach]. *)
Theorem collectSegments_errors (routeModule : RouteModule) (e : exn) :
  collectSegments routeModule = Some (Throw e) →
  (routeModule = OtherKind
   ∧ e = InvariantError "Expected a route module to be one of app route or page")
  ∨ (∃ m, routeModule = AppRouteKind m
          ∧ occurs "/" (AppRouteRouteModule.pathname
                          (AppRouteRouteModule.definition m)) = false
          ∧ e = InvariantError "Expected at least one segment")
  ∨ (routeModule ≠ OtherKind ∧ ∃ message, e = Error message).
Proof.
  destruct routeModule as [m|m|]; simpl.
  - intros [= Hthrow]. apply builder_throws in Hthrow as [[-> Hocc]|[Hmsg _]].
    + right. left. eauto.
    + right. right. done.
  - destruct (Chain_exists (AppPageRouteModule.loaderTree
                              (AppPageRouteModule.userland m))) as [nodes Hchain].
    rewrite (collectAppPageSegments_chain _ _ Hchain). intros [= Hthrow].
    apply visit_chain_throws_Error in Hthrow. right. right. done.
  - intros [= <-]. by left.
Qed.

(** X13.  A node whose module is not an object (a layout or page that did
    not resolve, for one) is passed through: the turn completes normally
    and the segment is as first built, with the name of the node, the file
    the loader gave, and neither configuration nor [generateStaticParams];
    it is the segment at the place of the node in what the walker
    returns. *)
Theorem non_object_module_is_passed_through (node : LoaderTree) :
  ¬ is_object (ResolvedModule.module (getLayoutOrPageModule node)) →
  visit node = (node_segment node, Normal tt)
  ∧ ∀ routeModule nodes segments i,
      Chain (AppPageRouteModule.loaderTree (AppPageRouteModule.userland routeModule)) nodes →
      nodes !! i = Some node →
      collectAppPageSegments routeModule = Some (Normal segments) →
      segments !! i = Some (node_segment node).
Proof.
  intros Hobj.
  assert (visit node = (node_segment node, Normal tt)) as Hvisit.
  { destruct (truthy (isClientComponent_of
                        (ResolvedModule.module (getLayoutOrPageModule node)))) eqn:Hc.
    - by apply visit_client.
    - rewrite (visit_server _ Hc). by apply attach_not_object. }
  split; [done|].
  intros routeModule nodes segments i Hchain Hi.
  rewrite (collectAppPageSegments_chain _ _ Hchain). intros [= Hsegments].
  apply visit_chain_inv in Hsegments as ->.
  rewrite list_lookup_fmap, Hi. simpl. by rewrite Hvisit.
Qed.

(** X14.  On every returned segment, [isDynamicSegment] is true exactly
    when the name is an opening bracket, then any code units none of which
    is a line break, then a closing bracket. *)
Theorem produced_segment_dynamic_shape (segment : AppSegment) :
  Produced segment →
  (isDynamicSegment segment = true
   ↔ ∃ inner,
       name segment = String "[" (inner +:+ "]")
       ∧ no_line_terminator inner = true).
Proof.
  intros [Hdyn _]%Produced_frame. rewrite Hdyn.
  unfold isDynamicSegment_of. rewrite test_anchored_Matches.
  apply Matches_bracketed.
Qed.

(** X15.  When the walker returns, the segment at the place of a node of
    the chain has the name of that node and the file the loader resolved
    for it, whatever [attach] did. *)
Theorem walker_segments_keep_name_and_file (routeModule : AppPageRouteModule.t)
    (nodes : list LoaderTree) (segments : list AppSegment) (i : nat) (node : LoaderTree) :
  Chain (AppPageRouteModule.loaderTree (AppPageRouteModule.userland routeModule)) nodes →
  collectAppPageSegments routeModule = Some (Normal segments) →
  nodes !! i = Some node →
  ∃ segment,
    segments !! i = Some segment
    ∧ name segment = segment_of node
    ∧ filePath segment = ResolvedModule.filePath (getLayoutOrPageModule node).
Proof.
  intros Hchain. rewrite (collectAppPageSegments_chain _ _ Hchain).
  intros [= Hsegments] Hi. apply visit_chain_inv in Hsegments as ->.
  exists (visit node).1. rewrite list_lookup_fmap, Hi. split; [done|].
  by destruct (visit_frame node) as (-> & _ & -> & _).
Qed.

(** X16.  A list of segments returned by [collectSegments] is never
    empty, for a page route as for a handler route. *)
Theorem collectSegments_never_empty (routeModule : RouteModule)
    (segments : list AppSegment) :
  collectSegments routeModule = Some (Normal segments) →
  1 ≤ length segments.
Proof.
  destruct routeModule as [m|m|]; simpl; [| |done].
  - intros [= (init & last & segment' & _ & _ & ->)%builder_returns].
    rewrite length_app. simpl. lia.
  - intros (nodes & Hchain & -> & _)%walker_returns.
    rewrite length_fmap. apply (Chain_length _ _ Hchain).
Qed.

(** X17.  For a handler route whose path template has a [/] and whose
    exports fail validation, the builder throws the validation error, and
    the file its message names is [definition.filename], however deep the
    path. *)
Theorem builder_validation_error_names_filename
    (routeModule : AppRouteRouteModule.t) (error : ZodError) :
  occurs "/" (AppRouteRouteModule.pathname
                (AppRouteRouteModule.definition routeModule)) = true →
  is_object (AppRouteRouteModule.userland routeModule) →
  AppSegmentConfigSchema_safeParse (AppRouteRouteModule.userland routeModule)
    = ParseFailure error →
  collectAppRouteSegments routeModule =
    Throw (Error (join (String line_feed "")
                    (invalid_options_header
                       (Some (AppRouteRouteModule.filename
                                (AppRouteRouteModule.definition routeModule)))
                       :: map (λ e, indented (NormalizedZodError.message e))
                              (normalizeZodErrors error)))).
Proof.
  intros Hocc Hobj Hparse.
  destruct (list_snoc_cases
              (slice1 (split "/" (AppRouteRouteModule.pathname
                                    (AppRouteRouteModule.definition routeModule)))))
    as [Hnil|(init & last & Hparts)].
  - assert (occurs "/" (AppRouteRouteModule.pathname
                          (AppRouteRouteModule.definition routeModule)) = false)
      by (apply slice1_split_empty; by rewrite Hnil).
    congruence.
  - rewrite (collectAppRouteSegments_parts _ _ _ Hparts).
    by rewrite (attach_parse_failure _ _ _ Hobj Hparse).
Qed.

(** X18.  When the turns of the walker before a node return and the module
    of that node is an object, no client component, that fails validation,
    the walker throws the validation error, and the file its message names
    is the one the loader resolved for that node. *)
Theorem walker_validation_error_names_file
    (routeModule : AppPageRouteModule.t) (before after : list LoaderTree)
    (node : LoaderTree) (error : ZodError) :
  Chain (AppPageRouteModule.loaderTree (AppPageRouteModule.userland routeModule))
    (before ++ node :: after) →
  (∀ node', node' ∈ before → (visit node').2 = Normal tt) →
  truthy (isClientComponent_of (ResolvedModule.module (getLayoutOrPageModule node))) = false →
  is_object (ResolvedModule.module (getLayoutOrPageModule node)) →
  AppSegmentConfigSchema_safeParse (ResolvedModule.module (getLayoutOrPageModule node))
    = ParseFailure error →
  collectAppPageSegments routeModule =
    Some (Throw (Error (join (String line_feed "")
                          (invalid_options_header
                             (ResolvedModule.filePath (getLayoutOrPageModule node))
                             :: map (λ e, indented (NormalizedZodError.message e))
                                    (normalizeZodErrors error))))).
Proof.
  intros Hchain Hbefore Hserver Hobj Hparse.
  rewrite (collectAppPageSegments_chain _ _ Hchain). f_equal.
  apply visit_chain_throw; [done|].
  rewrite (visit_server _ Hserver).
  by rewrite (attach_parse_failure _ _ _ Hobj Hparse).
Qed.

End CollectionExtras.

(** ** The properties on examples *)

Import SpecModel.

(** The export [{ runtime: 'edge', generateStaticParams: fn }]: [attach]
    throws, and the segment has both fields set when it does. *)
Lemma edge_error_leaves_both_fields_set :
  AppSegmentConfigSchema_safeParse (Collaborators := collaborators) edge_with_params
    = ParseSuccess {[ "runtime" := VString "edge" ]}
  ∧ (attach (H := collaborators) edge_with_params
       shop).2
      = Throw (Error edge_error_message)
  ∧ config (attach (H := collaborators) edge_with_params
              shop).1
      = Some {[ "runtime" := VString "edge" ]}
  ∧ generateStaticParams
      (attach (H := collaborators) edge_with_params
         shop).1
      = Some 0.
Proof. repeat split; vm_compute; reflexivity. Qed.

Lemma attach_edge_with_generateStaticParams_witness :
  attach (H := collaborators) edge_with_params
    shop
  = (set_generateStaticParams (Some 0)
       (set_config (Some {[ "runtime" := VString "edge" ]})
          shop),
     Throw (Error edge_error_message)).
Proof.
  apply (attach_edge_with_generateStaticParams (H := collaborators)).
  - split; [reflexivity | discriminate].
  - reflexivity.
  - reflexivity.
  - reflexivity.
Defined.

(** The path template [/]: one segment with the empty name, no error. *)
Lemma root_route_is_one_empty_segment :
  slice1 (split "/" "/") = [""]
  ∧ collectAppRouteSegments (H := collaborators) (route "/" VUndefined)
    = Normal [ {| name := ""; param := None; filePath := Some "app/route.ts";
                  config := None; isDynamicSegment := false;
                  generateStaticParams := None |} ].
Proof. split; reflexivity. Qed.

(** A tree of one node whose module exports
    [{ runtime: 'edge', generateStaticParams: fn }]: the walker throws and
    returns no segment. *)
Lemma walker_throws_on_single_node :
  Chain (leaf "shop" edge_with_params) [leaf "shop" edge_with_params]
  ∧ collectAppPageSegments (H := collaborators) (page (leaf "shop" edge_with_params))
    = Some (Throw (Error edge_error_message)).
Proof. split; [by apply Chain_last | reflexivity]. Qed.

Lemma walker_follows_chain_witness :
  ∃ segments,
    collectAppPageSegments (H := collaborators)
      (page (layout "" revalidate_only
               (layout "[slug]" client_module (leaf "__PAGE__" VUndefined))))
      = Some (Normal segments)
    ∧ length segments = 3
    ∧ name <$> segments = [""; "[slug]"; "__PAGE__"].
Proof.
  destruct (walker_follows_chain (H := collaborators)
              (page (layout "" revalidate_only
                       (layout "[slug]" client_module (leaf "__PAGE__" VUndefined))))
              [ layout "" revalidate_only
                  (layout "[slug]" client_module (leaf "__PAGE__" VUndefined));
                layout "[slug]" client_module (leaf "__PAGE__" VUndefined);
                leaf "__PAGE__" VUndefined ]) as [Hnormal _].
  - eapply Chain_step; [reflexivity|].
    eapply Chain_step; [reflexivity|].
    apply Chain_last. reflexivity.
  - destruct Hnormal as (segments & Hcollect & Hlength & Hnames & _).
    + intros node Hin. rewrite !elem_of_cons in Hin.
      destruct Hin as [->|[->|[->|Hin]]]; [reflexivity..|].
      by apply elem_of_nil in Hin.
    + exists segments. auto.
Defined.

(** The path template [/a/[id]/b] with the export
    [{ runtime: 'edge', generateStaticParams: fn }]: the builder throws and
    returns no segment. *)
Lemma route_a_id_b_throws_on_edge_export :
  AppRouteRouteModule.pathname
    (AppRouteRouteModule.definition (route "/a/[id]/b" edge_with_params)) = "/a/[id]/b"
  ∧ collectAppRouteSegments (H := collaborators) (route "/a/[id]/b" edge_with_params)
    = Throw (Error edge_error_message).
Proof. split; reflexivity. Qed.

Lemma route_a_id_b_witness :
  collectAppRouteSegments (H := collaborators) (route "/a/[id]/b" revalidate_only)
  = Normal
      [ {| name := "a"; param := None; filePath := None; config := None;
           isDynamicSegment := false; generateStaticParams := None |};
        {| name := "[id]"; param := Some "id"; filePath := None;
           config := None; isDynamicSegment := true;
           generateStaticParams := None |};
        {| name := "b"; param := None; filePath := Some "app/route.ts";
           config := Some {[ "revalidate" := VNumber 60%float ]};
           isDynamicSegment := false; generateStaticParams := None |} ].
Proof.
  destruct (route_a_id_b (H := collaborators) (route "/a/[id]/b" revalidate_only))
    as [Hreturns _].
  - reflexivity.
  - reflexivity.
  - apply Hreturns. vm_compute. reflexivity.
Defined.

Lemma attach_reports_every_field_error_witness :
  ∃ text,
    (attach (H := collaborators) two_invalid
       shop).2 = Throw (Error text)
    ∧ mentions text "Invalid value for runtime"
    ∧ mentions text "Invalid value for maxDuration".
Proof.
  destruct (attach_reports_every_field_error (H := collaborators) two_invalid
              ["Invalid value for runtime"; "Invalid value for maxDuration"]
              shop)
    as (text & Hthrow & _ & Hlines).
  - split; [reflexivity | discriminate].
  - reflexivity.
  - exists text. split; [done|]. split.
    + destruct (Hlines (NormalizedZodError.mk "Invalid value for runtime"))
        as (before & after & -> & _); [left|].
      exists (before +:+ String line_feed "    "), after.
      by rewrite !append_assoc.
    + destruct (Hlines (NormalizedZodError.mk "Invalid value for maxDuration"))
        as (before & after & -> & _); [right; left|].
      exists (before +:+ String line_feed "    "), after.
      by rewrite !append_assoc.
Defined.

Lemma attach_config_iff_keys_witness :
  config (attach (H := collaborators) (VObject ∅) shop).1 = None
  ∧ config (attach (H := collaborators) revalidate_only shop).1
    = Some {[ "revalidate" := VNumber 60%float ]}.
Proof.
  split.
  - destruct (attach_config_iff_keys (H := collaborators) (VObject ∅) ∅ shop)
      as [Hnone _].
    + split; [reflexivity | discriminate].
    + vm_compute; reflexivity.
    + rewrite Hnone by (vm_compute; reflexivity). reflexivity.
  - destruct (attach_config_iff_keys (H := collaborators) revalidate_only
                {[ "revalidate" := VNumber 60%float ]} shop) as [_ Hsome].
    + split; [reflexivity | discriminate].
    + vm_compute; reflexivity.
    + apply Hsome. vm_compute. discriminate.
Defined.

Lemma attach_skips_non_objects_witness :
  attach (H := collaborators) VUndefined shop = (shop, Normal tt)
  ∧ attach (H := collaborators) VNull shop = (shop, Normal tt).
Proof.
  split.
  - apply (attach_skips_non_objects (H := collaborators)). left. discriminate.
  - apply (attach_skips_non_objects (H := collaborators)). right. reflexivity.
Defined.

Lemma attach_validation_failure_is_atomic_witness :
  (attach (H := collaborators) two_invalid shop).1 = shop
  ∧ ∃ e, (attach (H := collaborators) two_invalid shop).2 = Throw e.
Proof.
  apply (attach_validation_failure_is_atomic (H := collaborators) two_invalid
           ["Invalid value for runtime"; "Invalid value for maxDuration"] shop).
  - split; [reflexivity | discriminate].
  - reflexivity.
Defined.

Lemma client_component_is_not_attached_witness :
  visit (H := collaborators) (leaf "[slug]" client_module)
  = ({| name := "[slug]"; param := Some "slug"; filePath := Some "app/page.tsx";
        config := None; isDynamicSegment := true; generateStaticParams := None |},
     Normal tt).
Proof.
  destruct (client_component_is_not_attached (H := collaborators)
              (leaf "[slug]" client_module)) as (Hvisit & _).
  - reflexivity.
  - rewrite Hvisit. reflexivity.
Defined.

Lemma produced_segment_dynamic_and_param_witness :
  Matches bracketed "[id]".
Proof.
  apply (produced_segment_dynamic_and_param (H := collaborators)
           {| name := "[id]"; param := Some "id"; filePath := None; config := None;
              isDynamicSegment := true; generateStaticParams := None |}).
  - exists (AppRouteKind (route "/a/[id]/b" VUndefined)). eexists. split.
    + reflexivity.
    + right. left.
  - reflexivity.
Defined.

(** ** More examples *)

(** The route [/a/[id]/b] exporting [{ revalidate: 60 }]. *)
Lemma revalidate_route_segments :
  collectAppRouteSegments (H := collaborators) (route "/a/[id]/b" revalidate_only)
  = Normal
      [ {| name := "a"; param := None; filePath := None; config := None;
           isDynamicSegment := false; generateStaticParams := None |};
        {| name := "[id]"; param := Some "id"; filePath := None;
           config := None; isDynamicSegment := true;
           generateStaticParams := None |};
        {| name := "b"; param := None; filePath := Some "app/route.ts";
           config := Some {[ "revalidate" := VNumber 60%float ]};
           isDynamicSegment := false; generateStaticParams := None |} ].
Proof. vm_compute. reflexivity. Qed.

Lemma revalidate_route_last_produced :
  Produced (H := collaborators)
    {| name := "b"; param := None; filePath := Some "app/route.ts";
       config := Some {[ "revalidate" := VNumber 60%float ]};
       isDynamicSegment := false; generateStaticParams := None |}.
Proof.
  exists (AppRouteKind (route "/a/[id]/b" revalidate_only)). eexists. split.
  - exact (f_equal Some revalidate_route_segments).
  - right. right. left.
Qed.

Lemma revalidate_route_middle_produced :
  Produced (H := collaborators)
    {| name := "[id]"; param := Some "id"; filePath := None; config := None;
       isDynamicSegment := true; generateStaticParams := None |}.
Proof.
  exists (AppRouteKind (route "/a/[id]/b" revalidate_only)). eexists. split.
  - exact (f_equal Some revalidate_route_segments).
  - right. left.
Qed.

(** The tree of a layout exporting [{ revalidate: 60 }] over a page whose
    exports have two invalid options. *)
Lemma invalid_page_chain :
  Chain (layout "" revalidate_only (leaf "shop" two_invalid))
    ([layout "" revalidate_only (leaf "shop" two_invalid)]
       ++ leaf "shop" two_invalid :: []).
Proof. eapply Chain_step; [reflexivity|]. apply Chain_last. reflexivity. Qed.

Lemma layout_chain :
  Chain (layout "" revalidate_only
           (layout "[slug]" client_module (leaf "__PAGE__" VUndefined)))
    [ layout "" revalidate_only
        (layout "[slug]" client_module (leaf "__PAGE__" VUndefined));
      layout "[slug]" client_module (leaf "__PAGE__" VUndefined);
      leaf "__PAGE__" VUndefined ].
Proof.
  eapply Chain_step; [reflexivity|]. eapply Chain_step; [reflexivity|].
  apply Chain_last. reflexivity.
Qed.

Lemma layout_walk :
  collectAppPageSegments (H := collaborators)
    (page (layout "" revalidate_only
             (layout "[slug]" client_module (leaf "__PAGE__" VUndefined))))
  = Some (Normal
      [ {| name := ""; param := None; filePath := Some "app/layout.tsx";
           config := Some {[ "revalidate" := VNumber 60%float ]};
           isDynamicSegment := false; generateStaticParams := None |};
        {| name := "[slug]"; param := Some "slug"; filePath := Some "app/layout.tsx";
           config := None; isDynamicSegment := true;
           generateStaticParams := None |};
        {| name := "__PAGE__"; param := None; filePath := Some "app/page.tsx";
           config := None; isDynamicSegment := false;
           generateStaticParams := None |} ]).
Proof. vm_compute. reflexivity. Qed.

Lemma attach_throws_iff_witness :
  ∃ e, (attach (H := collaborators) edge_with_params shop).2 = Throw e.
Proof.
  apply (attach_throws_iff (H := collaborators) edge_with_params shop).
  - reflexivity.
  - split; [split; [reflexivity | discriminate]|].
    right. exists {[ "runtime" := VString "edge" ]}, 0.
    repeat split; vm_compute; reflexivity.
Defined.

Lemma attach_error_messages_witness :
  ∃ rest,
    Error (join (String line_feed "")
             [ invalid_options_header (Some "app/shop/page.tsx");
               indented "Invalid value for runtime";
               indented "Invalid value for maxDuration" ])
    = Error (invalid_options_header (filePath shop) +:+ rest).
Proof.
  destruct (attach_error_messages (H := collaborators) two_invalid shop
              (Error (join (String line_feed "")
                        [ invalid_options_header (Some "app/shop/page.tsx");
                          indented "Invalid value for runtime";
                          indented "Invalid value for maxDuration" ])))
    as [Hedge|Hheader].
  - vm_compute. reflexivity.
  - vm_compute in Hedge. discriminate.
  - exact Hheader.
Defined.

Lemma attach_generateStaticParams_witness :
  generateStaticParams
    (attach (H := collaborators)
       (VObject {[ "generateStaticParams" := VString "later" ]}) shop).1 = None
  ∧ (attach (H := collaborators)
       (VObject {[ "generateStaticParams" := VString "later" ]}) shop).2 = Normal tt.
Proof.
  destruct (attach_generateStaticParams (H := collaborators)
              (VObject {[ "generateStaticParams" := VString "later" ]}) ∅ shop)
    as [Hassigned Hreturns].
  - split; [reflexivity | discriminate].
  - vm_compute. reflexivity.
  - split.
    + rewrite Hassigned. vm_compute. reflexivity.
    + apply Hreturns. intros f Hf. vm_compute in Hf. discriminate.
Defined.

Lemma produced_segment_edge_exclusive_witness :
  ¬ (runtime_is_edge
       {| name := "b"; param := None; filePath := Some "app/route.ts";
          config := Some {[ "revalidate" := VNumber 60%float ]};
          isDynamicSegment := false; generateStaticParams := None |} = true
     ∧ is_Some (generateStaticParams
                  {| name := "b"; param := None; filePath := Some "app/route.ts";
                     config := Some {[ "revalidate" := VNumber 60%float ]};
                     isDynamicSegment := false; generateStaticParams := None |})).
Proof.
  apply (produced_segment_edge_exclusive (H := collaborators)).
  apply revalidate_route_last_produced.
Defined.

Lemma produced_segment_config_has_key_witness :
  Object_keys ({[ "revalidate" := VNumber 60%float ]} : gmap string value) ≠ []
  ∧ ({[ "revalidate" := VNumber 60%float ]} : gmap string value) ≠ ∅.
Proof.
  apply (produced_segment_config_has_key (H := collaborators)
           {| name := "b"; param := None; filePath := Some "app/route.ts";
              config := Some {[ "revalidate" := VNumber 60%float ]};
              isDynamicSegment := false; generateStaticParams := None |}).
  - apply revalidate_route_last_produced.
  - reflexivity.
Defined.

Lemma builder_segments_witness :
  ∃ segments,
    collectAppRouteSegments (H := collaborators) (route "/a/[id]/b" revalidate_only)
      = Normal segments
    ∧ name <$> segments = ["a"; "[id]"; "b"]
    ∧ length segments = 3.
Proof.
  eexists. split; [apply revalidate_route_segments|].
  destruct (builder_segments (H := collaborators) (route "/a/[id]/b" revalidate_only) _
              revalidate_route_segments) as (Hnames & Hlength & _).
  split; [exact Hnames | exact Hlength].
Defined.

Lemma builder_names_join_to_pathname_witness :
  ∃ segments,
    collectAppRouteSegments (H := collaborators) (route "/a/[id]/b" revalidate_only)
      = Normal segments
    ∧ String "/" (join "/" (name <$> segments)) = "/a/[id]/b".
Proof.
  eexists. split; [apply revalidate_route_segments|].
  apply (builder_names_join_to_pathname (H := collaborators)
           (route "/a/[id]/b" revalidate_only) _ "a/[id]/b").
  - reflexivity.
  - apply revalidate_route_segments.
Defined.

Lemma builder_ignores_before_first_slash_witness :
  collectAppRouteSegments (H := collaborators) (route "api/a/[id]/b" revalidate_only)
  = collectAppRouteSegments (H := collaborators) (route "/a/[id]/b" revalidate_only).
Proof.
  apply (builder_ignores_before_first_slash (H := collaborators)
           "api" "a/[id]/b" "app/route.ts" revalidate_only).
  reflexivity.
Defined.

Lemma builder_names_have_no_slash_witness :
  occurs "/" "[id]" = false.
Proof.
  apply (builder_names_have_no_slash (H := collaborators)
           (route "/a/[id]/b" revalidate_only) _
           {| name := "[id]"; param := Some "id"; filePath := None; config := None;
              isDynamicSegment := true; generateStaticParams := None |}
           revalidate_route_segments).
  right. left.
Defined.

Lemma collectSegments_errors_witness :
  collectSegments (H := collaborators) (AppRouteKind (route "" VUndefined))
    = Some (Throw (InvariantError "Expected at least one segment"))
  ∧ occurs "/" "" = false.
Proof.
  split; [reflexivity|].
  destruct (collectSegments_errors (H := collaborators)
              (AppRouteKind (route "" VUndefined))
              (InvariantError "Expected at least one segment"))
    as [[Hkind _]|[(m & Hkind & Hocc & _)|[_ [message Hmessage]]]].
  - reflexivity.
  - discriminate.
  - injection Hkind as <-. exact Hocc.
  - discriminate.
Defined.

Lemma non_object_module_is_passed_through_witness :
  visit (H := collaborators) (LoaderTreeNode "(group)" ∅ ∅)
  = ({| name := "(group)"; param := None; filePath := None; config := None;
        isDynamicSegment := false; generateStaticParams := None |}, Normal tt).
Proof.
  destruct (non_object_module_is_passed_through (H := collaborators)
              (LoaderTreeNode "(group)" ∅ ∅)) as [Hvisit _].
  - intros [Htype _]. discriminate.
  - rewrite Hvisit. reflexivity.
Defined.

Lemma produced_segment_dynamic_shape_witness :
  ∃ inner, "[id]" = String "[" (inner +:+ "]") ∧ no_line_terminator inner = true.
Proof.
  apply (produced_segment_dynamic_shape (H := collaborators)
           {| name := "[id]"; param := Some "id"; filePath := None; config := None;
              isDynamicSegment := true; generateStaticParams := None |}).
  - apply revalidate_route_middle_produced.
  - reflexivity.
Defined.

Lemma walker_segments_keep_name_and_file_witness :
  ∃ segment,
    [ {| name := ""; param := None; filePath := Some "app/layout.tsx";
         config := Some {[ "revalidate" := VNumber 60%float ]};
         isDynamicSegment := false; generateStaticParams := None |};
      {| name := "[slug]"; param := Some "slug"; filePath := Some "app/layout.tsx";
         config := None; isDynamicSegment := true;
         generateStaticParams := None |};
      {| name := "__PAGE__"; param := None; filePath := Some "app/page.tsx";
         config := None; isDynamicSegment := false;
         generateStaticParams := None |} ] !! 2 = Some segment
    ∧ name segment = "__PAGE__"
    ∧ filePath segment = Some "app/page.tsx".
Proof.
  apply (walker_segments_keep_name_and_file (H := collaborators)
           (page (layout "" revalidate_only
                    (layout "[slug]" client_module (leaf "__PAGE__" VUndefined))))
           _ _ 2 (leaf "__PAGE__" VUndefined) layout_chain layout_walk).
  reflexivity.
Defined.

Lemma collectSegments_never_empty_witness :
  1 ≤ length
        [ {| name := ""; param := None; filePath := Some "app/route.ts";
             config := None; isDynamicSegment := false;
             generateStaticParams := None |} ].
Proof.
  apply (collectSegments_never_empty (H := collaborators)
           (AppRouteKind (route "/" VUndefined))).
  reflexivity.
Defined.

Lemma builder_validation_error_names_filename_witness :
  collectAppRouteSegments (H := collaborators) (route "/a/[id]/b" two_invalid)
  = Throw (Error (join (String line_feed "")
                    [ invalid_options_header (Some "app/route.ts");
                      indented "Invalid value for runtime";
                      indented "Invalid value for maxDuration" ])).
Proof.
  apply (builder_validation_error_names_filename (H := collaborators)
           (route "/a/[id]/b" two_invalid)
           ["Invalid value for runtime"; "Invalid value for maxDuration"]).
  - reflexivity.
  - split; [reflexivity | discriminate].
  - vm_compute. reflexivity.
Defined.

Lemma walker_validation_error_names_file_witness :
  collectAppPageSegments (H := collaborators)
    (page (layout "" revalidate_only (leaf "shop" two_invalid)))
  = Some (Throw (Error (join (String line_feed "")
                          [ invalid_options_header (Some "app/page.tsx");
                            indented "Invalid value for runtime";
                            indented "Invalid value for maxDuration" ]))).
Proof.
  apply (walker_validation_error_names_file (H := collaborators)
           (page (layout "" revalidate_only (leaf "shop" two_invalid)))
           [layout "" revalidate_only (leaf "shop" two_invalid)] []
           (leaf "shop" two_invalid)
           ["Invalid value for runtime"; "Invalid value for maxDuration"]).
  - apply invalid_page_chain.
  - intros node Hin. apply list_elem_of_singleton in Hin as ->.
    vm_compute. reflexivity.
  - reflexivity.
  - split; [reflexivity | discriminate].
  - vm_compute. reflexivity.
Defined.
